(** * Rayleigh-Benard convection driver (main.py): a shallow embedding

    The script sets up a grid, builds finite-difference operators, and then
    marches the coupled temperature / stream-function state in time with two
    sparse linear solves per step.

    Modelling conventions.
    - numpy float64 values are idealised as exact rationals ([Qc], canonical
      fractions with Leibniz equality): the linear algebra is exact.  The
      one running sum of the script, the time list, is taken with a rounding
      [rnd] about which nothing is assumed.
    - A one-dimensional numpy array is a [list Qc]; a two-dimensional array
      and a scipy sparse matrix are lists of rows.
    - Python exceptions are the [Raise] branch of [result]; the script has
      no [try], so every exception propagates through [mbind].
    - The modules [operators], [matrices], [discretizationUtils] and the
      scipy solvers are not part of main.py.  The operators and the solvers
      are fields of the records [Operators] and [Library]; the two layout
      converters are modelled from the specification.
    - A pass of the loop is [loop_pass]: the time list and the display
      block (lines 109-177, [display_part]), then the numerical part (lines
      180-214, [step]).  The matplotlib calls of the display block are left
      out; what the script computes for them is kept, and so are the
      exceptions that computing it can raise.  The whole script is [main].

    The file has two parts: the definitions (the embedding, the vocabulary
    of the statements, and a 3 by 3 and a 10 by 2 instance with toy solvers
    on which the statements are exercised), then the lemmas and the
    theorems. *)

From Stdlib Require Import ZArith QArith Qcanon Lia.
From stdpp Require Import base numbers list.

Open Scope Qc_scope.

(** ** Exceptions and the error monad *)

Inductive exn : Type :=
  | ValueError
  | ZeroDivisionError
  | NameError
  | RuntimeError.

Inductive result (A : Type) : Type :=
  | Ok (a : A)
  | Raise (e : exn).
Arguments Ok {A} a.
Arguments Raise {A} e.

#[global] Instance result_ret : MRet result := λ A a, Ok a.
#[global] Instance result_bind : MBind result := λ A B f m,
  match m with
  | Ok a => f a
  | Raise e => Raise e
  end.

(** ** Scalars *)

Definition Qc_of_int (z : Z) : Qc := Q2Qc (inject_Z z).

(** Python's true division of two ints, [a / b]. *)
Definition py_truediv (a b : Z) : result Qc :=
  if decide (b = 0%Z) then Raise ZeroDivisionError
  else Ok (Qc_of_int a / Qc_of_int b).

(** [int(a / 2 + k)] for ints [a], [k]: exact quotient, truncated toward
    zero. *)
Definition int_half_plus (a k : Z) : Z := Z.quot (a + 2 * k) 2.

(** ** Python slices with a positive step *)

(** Normalisation of one slice bound against an axis of length [len]
    (negative bounds count from the end, everything is clamped). *)
Definition norm_bound (len : nat) (i : Z) : nat :=
  if decide (i < 0)%Z then Z.to_nat (i + Z.of_nat len)
  else Z.to_nat i `min` len.

Fixpoint range_from (fuel i stop step : nat) : list nat :=
  match fuel with
  | O => []
  | S fuel' =>
      if decide (i < stop)%nat then i :: range_from fuel' (i + step) stop step
      else []
  end.

(** Effective bounds of [start:stop] on an axis of length [len]; [None] is
    an omitted bound. *)
Definition slice_lo (len : nat) (start : option Z) : nat :=
  from_option (norm_bound len) 0%nat start.
Definition slice_hi (len : nat) (stop : option Z) : nat :=
  from_option (norm_bound len) len stop.

(** Indices selected by [start:stop:step] on an axis of length [len].  A
    zero step raises [ValueError]. *)
Definition slice_indices (len : nat) (start stop : option Z) (step : nat)
    : result (list nat) :=
  if decide (step = 0%nat) then Raise ValueError
  else Ok (range_from len (slice_lo len start) (slice_hi len stop) step).

Definition set_all {A} (v : A) (idx : list nat) (l : list A) : list A :=
  foldl (λ acc i, <[i:=v]> acc) l idx.

(** [a[start:stop:step] = v] on a one-dimensional array. *)
Definition assign_slice {A} (start stop : option Z) (step : nat) (v : A)
    (a : list A) : result (list A) :=
  idx ← slice_indices (length a) start stop step;
  Ok (set_all v idx a).

(** [a[r0:r1, c0:c1] = v] on a two-dimensional array. *)
Definition assign_slice2 {A} (r0 r1 c0 c1 : option Z) (v : A)
    (a : list (list A)) : result (list (list A)) :=
  ridx ← slice_indices (length a) r0 r1 1;
  foldl (λ acc i,
           g ← acc;
           match g !! i with
           | Some row => row' ← assign_slice c0 c1 1 v row; Ok (<[i:=row']> g)
           | None => Ok g
           end) (Ok a) ridx.

(** The predicate a slice with bounds [lo], [hi] and step [step] selects. *)
Definition in_range (lo hi step k : nat) : Prop :=
  (lo ≤ k < hi)%nat ∧ ((k - lo) `mod` step = 0)%nat.

#[global] Instance in_range_dec lo hi step k : Decision (in_range lo hi step k).
Proof. unfold in_range. apply _. Defined.

(** ** Dense linear algebra on lists *)

Abbreviation vec := (list Qc).
Abbreviation matrix := (list (list Qc)).

Definition vadd (u v : vec) : vec := zip_with Qcplus u v.
Definition vsub (u v : vec) : vec := zip_with Qcminus u v.
Definition vscale (a : Qc) (v : vec) : vec := Qcmult a <$> v.
Definition dot (r x : vec) : Qc := foldr Qcplus 0 (zip_with Qcmult r x).
Definition mvmul (M : matrix) (x : vec) : vec := (λ r, dot r x) <$> M.
Definition madd (M N : matrix) : matrix := zip_with vadd M N.
Definition msub (M N : matrix) : matrix := zip_with vsub M N.
Definition mscale (a : Qc) (M : matrix) : matrix := vscale a <$> M.

(** [sparse.diags(d, 0)] and [sparse.eye(n)]. *)
Definition diags (d : vec) : matrix :=
  imap (λ i di, <[i:=di]> (replicate (length d) 0)) d.
Definition eye (n : nat) : matrix := diags (replicate n 1).

(** A matrix is [n] by [n]. *)
Definition square (n : nat) (M : matrix) : Prop :=
  length M = n ∧ Forall (λ r, length r = n) M.

(** ** Layout converter *)

Definition ncols (g : list vec) : nat :=
  match g with
  | [] => 0%nat
  | r :: _ => length r
  end.

(** A grid field of [ny] rows and [nx] columns. *)
Definition grid_shape (ny nx : nat) (g : list vec) : Prop :=
  length g = ny ∧ Forall (λ r, length r = nx) g.

(** Modelled from the spec: [discretizationUtils.fieldToVec] is not in
    main.py.  The specification describes it as the flattening of a grid
    field in column-major order (the row index varies fastest). *)
Definition fieldToVec (g : list vec) : vec :=
  concat ((λ j, (λ r, default 0 (r !! j)) <$> g) <$> seq 0 (ncols g)).

(** Modelled from the spec: [discretizationUtils.vecToField] is not in
    main.py.  The specification describes it as the inverse reshape of
    [fieldToVec] for a grid of [ny] rows and [nx] columns, with a size
    mismatch as its only (fatal) error. *)
Definition vecToField (ny nx : nat) (v : vec) : result (list vec) :=
  if decide (length v = (ny * nx)%nat) then
    Ok ((λ i, (λ j, default 0 (v !! (j * ny + i)%nat)) <$> seq 0 nx) <$> seq 0 ny)
  else Raise ValueError.

(** ** Configuration (lines 14-36) *)

Record Config : Type := {
  dt : Qc;
  nt : nat;
  ny : nat;
  nx : nat;
  dy : Qc;
  dx : Qc
}.

Record Params : Type := {
  useSuperLUFactorizationEq1 : bool;
  useSuperLUFactorizationEq2 : bool;
  sqrtRa : Qc;
  Tbottom : Qc;
  Ttop : Qc
}.

Definition make_config (dt0 : Qc) (nt0 ny0 nx0 : nat) : result Config :=
  dy0 ← py_truediv 1 (Z.of_nat ny0 - 1);
  dx0 ← py_truediv 2 (Z.of_nat ny0 - 1);
  Ok {| dt := dt0; nt := nt0; ny := ny0; nx := nx0; dy := dy0; dx := dx0 |}.

Definition main_dt : Qc := Q2Qc (1 # 100).
Definition main_nt : nat := 3000.
Definition main_ny : nat := 20.
Definition main_nx : nat := 40.

Definition main_params : Params :=
  {| useSuperLUFactorizationEq1 := true;
     useSuperLUFactorizationEq2 := true;
     sqrtRa := Qc_of_int 7;
     Tbottom := Qc_of_int 1;
     Ttop := Qc_of_int 0 |}.

(** ** Initial conditions (lines 49-53) *)

(** [np.linspace(start, stop, num)]. *)
Definition linspace (start stop : Qc) (num : nat) : vec :=
  (λ i : nat, start + Qc_of_int (Z.of_nat i)
                      * ((stop - start) / Qc_of_int (Z.of_nat num - 1)))
    <$> seq 0 num.

(** [np.expand_dims(col, 1).repeat(nx, axis=1)]. *)
Definition repeat_columns (nx0 : nat) (col : vec) : list vec :=
  replicate nx0 <$> col.

Definition linear_profile (p : Params) (ny0 nx0 : nat) : list vec :=
  repeat_columns nx0 (linspace (Tbottom p) (Ttop p) ny0).

Definition one_half : Qc := Q2Qc (1 # 2).

Definition startT_field (p : Params) (ny0 nx0 : nat) : result (list vec) :=
  assign_slice2 (Some 2%Z) (Some 3%Z)
    (Some (int_half_plus (Z.of_nat nx0) (-1)))
    (Some (int_half_plus (Z.of_nat nx0) 1))
    one_half (linear_profile p ny0 nx0).

Definition startT (p : Params) (ny0 nx0 : nat) : result vec :=
  f ← startT_field p ny0 nx0; Ok (fieldToVec f).

Definition startPsi (ny0 nx0 : nat) : vec :=
  fieldToVec (repeat_columns nx0 (replicate ny0 0)).

(** ** Elimination mask (lines 66-71) *)

Definition psiElim_diagonal (ny0 nx0 : nat) : result vec :=
  d1 ← assign_slice (Some 0%Z) (Some (Z.of_nat ny0)) 1 0 (replicate (nx0 * ny0) 1);
  d2 ← assign_slice (Some (- Z.of_nat ny0)%Z) None 1 0 d1;
  d3 ← assign_slice (Some (Z.of_nat ny0)) None ny0 0 d2;
  assign_slice (Some (Z.of_nat ny0 - 1)%Z) None ny0 0 d3.

Definition make_psiElim (ny0 nx0 : nat) : result matrix :=
  d ← psiElim_diagonal ny0 nx0; Ok (diags d).

(** Grid-vector indices on one of the four edges. *)
Definition boundary (ny0 nx0 i : nat) : Prop :=
  (i < ny0 ∨ nx0 * ny0 - ny0 ≤ i ∨ i `mod` ny0 = 0 ∨ i `mod` ny0 = ny0 - 1)%nat.

#[global] Instance boundary_dec ny0 nx0 i : Decision (boundary ny0 nx0 i).
Proof. unfold boundary. apply _. Defined.

(** ** Operators and library routines that main.py imports *)

Record Operators : Type := {
  dyOpPsi : matrix;
  dxOpPsi : matrix;
  dlOpPsi : matrix;
  dlOpTemp : matrix;
  rhsDlOpTemp : vec;
  dxOpTemp : matrix;
  rhsDxOpTemp : vec;
  dyOpTemp : matrix;
  rhsDyOpTemp : vec
}.

(** [constructC] is [matrices.constructC]; [factorized] and [spsolve] are
    the two scipy entry points.  [factorized] raises or returns a solve
    closure; the closure and [spsolve] raise or return a vector. *)
Record Library : Type := {
  constructC : Operators → vec → Qc → matrix * vec;
  factorized : matrix → result (vec → result vec);
  spsolve : matrix → vec → result vec
}.

(** ** Program state: the module-level variables *)

Record Globals : Type := {
  config : Config;
  params : Params;
  ops : Operators;
  psiElim : matrix;
  factor1 : option (vec → result vec);
  Tnplus1 : vec;
  Psinplus1 : vec
}.

Definition npoints (g : Globals) : nat := (nx (config g) * ny (config g))%nat.

(** [Tnplus1.shape = (nx * ny, 1)]. *)
Definition set_shape (n : nat) (v : vec) : result vec :=
  if decide (length v = n) then Ok v else Raise ValueError.

(** ** One pass of the loop body (lines 180-214) *)

Definition lhsT (g : Globals) (C : matrix) : matrix :=
  madd (eye (npoints g)) (mscale (dt (config g) / 2) C).

Definition rhsT (g : Globals) (C : matrix) (rhsC Tn : vec) : vec :=
  vadd (vscale (dt (config g)) rhsC)
       (mvmul (msub (eye (npoints g)) (mscale (dt (config g) / 2) C)) Tn).

Definition assembleC (lib : Library) (g : Globals) : matrix * vec :=
  constructC lib (ops g) (Psinplus1 g) (sqrtRa (params g)).

Definition solveT (lib : Library) (g : Globals) : result vec :=
  let Tn := Tnplus1 g in
  let '(C, rhsC) := assembleC lib g in
  if useSuperLUFactorizationEq2 (params g) then
    factor2 ← factorized lib (lhsT g C);
    factor2 (rhsT g C rhsC Tn)
  else spsolve lib (lhsT g C) (rhsT g C rhsC Tn).

Definition enforceT (g : Globals) (T : vec) : result vec :=
  let n := ny (config g) in
  T1 ← assign_slice (Some 0%Z) None n (Tbottom (params g)) T;
  assign_slice (Some (Z.of_nat n - 1)%Z) None n (Ttop (params g)) T1.

Definition rhsPsi (g : Globals) (T : vec) : vec :=
  mvmul (mscale (- sqrtRa (params g)) (psiElim g))
        (vsub (mvmul (dxOpTemp (ops g)) T) (rhsDxOpTemp (ops g))).

Definition solvePsi (lib : Library) (g : Globals) (T : vec) : result vec :=
  if useSuperLUFactorizationEq1 (params g) then
    match factor1 g with
    | Some f => f (rhsPsi g T)
    | None => Raise NameError
    end
  else spsolve lib (dlOpPsi (ops g)) (rhsPsi g T).

Definition enforcePsi (g : Globals) (P : vec) : result vec :=
  let n := ny (config g) in
  P1 ← assign_slice (Some 0%Z) None n 0 P;
  P2 ← assign_slice (Some (Z.of_nat n - 1)%Z) None n 0 P1;
  P3 ← assign_slice (Some 0%Z) (Some (Z.of_nat n)) 1 0 P2;
  assign_slice (Some (- Z.of_nat n)%Z) None 1 0 P3.

Definition set_fields (g : Globals) (T P : vec) : Globals :=
  {| config := config g; params := params g; ops := ops g;
     psiElim := psiElim g; factor1 := factor1 g;
     Tnplus1 := T; Psinplus1 := P |}.

Definition step (lib : Library) (g : Globals) : result Globals :=
  Tsol ← solveT lib g;
  Tcol ← set_shape (npoints g) Tsol;
  T' ← enforceT g Tcol;
  Psol ← solvePsi lib g T';
  Pcol ← set_shape (npoints g) Psol;
  P' ← enforcePsi g Pcol;
  Ok (set_fields g T' P').

(** ** The whole script *)

Definition make_factor1 (lib : Library) (p : Params) (o : Operators)
    : result (option (vec → result vec)) :=
  if useSuperLUFactorizationEq1 p then
    f ← factorized lib (dlOpPsi o); Ok (Some f)
  else Ok None.

Definition setup (lib : Library) (dt0 : Qc) (nt0 ny0 nx0 : nat)
    (p : Params) (o : Operators) : result Globals :=
  cfg ← make_config dt0 nt0 ny0 nx0;
  T0 ← startT p ny0 nx0;
  E ← make_psiElim ny0 nx0;
  f1 ← make_factor1 lib p o;
  Ok {| config := cfg; params := p; ops := o; psiElim := E; factor1 := f1;
        Tnplus1 := T0; Psinplus1 := startPsi ny0 nx0 |}.

(** [k] times the numerical part of a pass (lines 180-214). *)
Fixpoint iterate (lib : Library) (k : nat) (g : Globals) : result Globals :=
  match k with
  | O => Ok g
  | S k' => g' ← step lib g; iterate lib k' g'
  end.

Definition fields (g : Globals) : vec * vec := (Tnplus1 g, Psinplus1 g).

(** [g] holds the fields after the set-up code and the numerical part of
    [k] passes of the loop. *)
Definition reached (lib : Library) (dt0 : Qc) (nt0 ny0 nx0 : nat)
    (p : Params) (o : Operators) (k : nat) (g : Globals) : Prop :=
  ∃ g0, setup lib dt0 nt0 ny0 nx0 p o = Ok g0 ∧ iterate lib k g0 = Ok g.

(** ** Specification vocabulary *)

(** The Crank-Nicolson system as the specification writes it:
    [(I + (dt/2) C) T' = dt rhsC + (I - (dt/2) C) T] on [n] grid points. *)
Definition crank_nicolson_matrix (dt0 : Qc) (n : nat) (C : matrix) : matrix :=
  madd (eye n) (mscale (dt0 / 2) C).

Definition crank_nicolson_rhs (dt0 : Qc) (n : nat) (C : matrix)
    (rhsC T : vec) : vec :=
  vadd (vscale dt0 rhsC) (mvmul (msub (eye n) (mscale (dt0 / 2) C)) T).

(** Every vector a solver hands back solves the system it was given. *)
Record solver_sound (lib : Library) : Prop := {
  factorized_sound : ∀ A f b x,
    factorized lib A = Ok f → f b = Ok x → mvmul A x = b;
  spsolve_sound : ∀ A b x,
    spsolve lib A b = Ok x → mvmul A x = b
}.

(** On the [n] by [n] system matrix [A] both entry points succeed for every
    right-hand side of length [n], return a solution of length [n], and the
    solution is unique. *)
Record solver_exact (lib : Library) (n : nat) (A : matrix) : Prop := {
  factorized_exact : ∃ f, factorized lib A = Ok f ∧
    ∀ b, length b = n → ∃ x, f b = Ok x ∧ length x = n ∧ mvmul A x = b;
  spsolve_exact : ∀ b, length b = n →
    ∃ x, spsolve lib A b = Ok x ∧ length x = n ∧ mvmul A x = b;
  solution_unique : ∀ x y,
    length x = n → length y = n → mvmul A x = mvmul A y → x = y
}.

(** [matrices.constructC] returns as many rows and corrections as the grid
    has points. *)
Definition constructC_shaped (lib : Library) (o : Operators) (s : Qc)
    (n : nat) : Prop :=
  ∀ psi, length (constructC lib o psi s).1 = n
         ∧ length (constructC lib o psi s).2 = n.

(** The library is exact on the two systems of the program instance
    [(dt0, ny0, nx0, p, o)]: the stream-function Laplacian and, for every
    stream function, the Crank-Nicolson matrix. *)
Definition exact_for (lib : Library) (dt0 : Qc) (ny0 nx0 : nat)
    (p : Params) (o : Operators) : Prop :=
  constructC_shaped lib o (sqrtRa p) (nx0 * ny0)
  ∧ solver_exact lib (nx0 * ny0) (dlOpPsi o)
  ∧ ∀ psi, solver_exact lib (nx0 * ny0)
             (madd (eye (nx0 * ny0))
                   (mscale (dt0 / 2) (constructC lib o psi (sqrtRa p)).1)).

(** The state belongs to the program instance [(dt0, ny0, nx0, p, o)]. *)
Definition instance_of (dt0 : Qc) (ny0 nx0 : nat) (p : Params)
    (o : Operators) (g : Globals) : Prop :=
  dt (config g) = dt0 ∧ ny (config g) = ny0 ∧ nx (config g) = nx0
  ∧ ops g = o ∧ sqrtRa (params g) = sqrtRa p.

(** Two states that differ at most in the solver flags and in the cached
    factorization. *)
Definition same_up_to_flags (g g' : Globals) : Prop :=
  config g = config g' ∧ ops g = ops g' ∧ psiElim g = psiElim g'
  ∧ Tnplus1 g = Tnplus1 g' ∧ Psinplus1 g = Psinplus1 g'
  ∧ sqrtRa (params g) = sqrtRa (params g')
  ∧ Tbottom (params g) = Tbottom (params g')
  ∧ Ttop (params g) = Ttop (params g').

(** The variables written before the loop hold what lines 66-71 and 86-91
    compute. *)
Definition prepared (lib : Library) (g : Globals) : Prop :=
  make_factor1 lib (params g) (ops g) = Ok (factor1 g)
  ∧ make_psiElim (ny (config g)) (nx (config g)) = Ok (psiElim g).

(** The program with the two solver flags replaced. *)
Definition with_flags (e1 e2 : bool) (p : Params) : Params :=
  {| useSuperLUFactorizationEq1 := e1; useSuperLUFactorizationEq2 := e2;
     sqrtRa := sqrtRa p; Tbottom := Tbottom p; Ttop := Ttop p |}.

Definition fmap_result {A B} (f : A → B) (r : result A) : result B :=
  match r with
  | Ok a => Ok (f a)
  | Raise e => Raise e
  end.

(** ** A small concrete instance: a 3 by 3 grid *)

(** A solver that accepts the identity matrix only. *)
Definition unit_factorized (A : matrix) : result (vec → result vec) :=
  if decide (A = eye (length A)) then
    Ok (λ b, if decide (length b = length A) then Ok b else Raise ValueError)
  else Raise RuntimeError.

Definition unit_spsolve (A : matrix) (b : vec) : result vec :=
  f ← unit_factorized A; f b.

Definition zero_matrix (n : nat) : matrix := replicate n (replicate n 0).

(** No advection and no diffusion: [C = 0]. *)
Definition unit_lib : Library :=
  {| constructC := λ _ _ _, (zero_matrix 9, replicate 9 0);
     factorized := unit_factorized;
     spsolve := unit_spsolve |}.

Definition unit_ops : Operators :=
  {| dyOpPsi := zero_matrix 9; dxOpPsi := zero_matrix 9; dlOpPsi := eye 9;
     dlOpTemp := zero_matrix 9; rhsDlOpTemp := replicate 9 0;
     dxOpTemp := eye 9; rhsDxOpTemp := replicate 9 0;
     dyOpTemp := zero_matrix 9; rhsDyOpTemp := replicate 9 0 |}.

Definition unit_setup (lib : Library) (p : Params) : result Globals :=
  setup lib main_dt 2 3 3 p unit_ops.

(** A solver for diagonal systems: it divides the right-hand side by the
    diagonal and hands the quotient back when that solves the system. *)
Definition diagonal (A : matrix) : vec := imap (λ i r, default 0 (r !! i)) A.

Definition diag_spsolve (A : matrix) (b : vec) : result vec :=
  let x := zip_with Qcdiv b (diagonal A) in
  if decide (length b = length A ∧ mvmul A x = b) then Ok x
  else Raise RuntimeError.

Definition diag_factorized (A : matrix) : result (vec → result vec) :=
  if decide (A = diags (diagonal A) ∧ Forall (λ d, d ≠ 0) (diagonal A))
  then Ok (diag_spsolve A) else Raise RuntimeError.

(** Damping and a source: [C = 100 I] and [rhsC = 100], which at
    [dt = 1/100] make the system [(3/2) T' = 1 + T / 2]. *)
Definition damped_lib : Library :=
  {| constructC := λ _ _ _,
       (mscale (Qc_of_int 100) (eye 9), replicate 9 (Qc_of_int 100));
     factorized := diag_factorized;
     spsolve := diag_spsolve |}.

(** ** The display block of the loop (lines 98-177)

    Every [generateEvery]-th pass the script computes the velocity field,
    the largest speed and three heat fluxes from the current state, appends
    them to running lists and hands the lists to matplotlib.  The matplotlib
    calls draw and save a figure and give nothing back to the script; they
    are left out here.  What is kept is what the script computes for them:
    the time axis, the four lists and the sampled time axis
    [t[::generateEvery]] the lists are plotted against. *)

(** The exceptions of this block: those of the numerical part, and the
    [IndexError] of an index out of range. *)
Inductive display_exn : Type :=
  | Numeric (e : exn)
  | IndexError.

Inductive outcome (A : Type) : Type :=
  | Done (a : A)
  | Failed (e : display_exn).
Arguments Done {A} a.
Arguments Failed {A} e.

#[global] Instance outcome_ret : MRet outcome := λ A a, Done a.
#[global] Instance outcome_bind : MBind outcome := λ A B f m,
  match m with
  | Done a => f a
  | Failed e => Failed e
  end.

Definition from_result {A} (r : result A) : outcome A :=
  match r with
  | Ok a => Done a
  | Raise e => Failed (Numeric e)
  end.

Record PlotSettings : Type := {
  generateAnimation : bool;
  generateEvery : nat
}.

Definition main_plot_settings : PlotSettings :=
  {| generateAnimation := true; generateEvery := 10 |}.

Record Accumulators : Type := {
  t : vec;
  maxSpeedArr : vec;
  heatFluxConductionArr : vec;
  heatFluxAdvectionArr : vec;
  totalHeatFluxArr : vec
}.

Definition no_accumulators : Accumulators :=
  {| t := []; maxSpeedArr := []; heatFluxConductionArr := [];
     heatFluxAdvectionArr := []; totalHeatFluxArr := [] |}.

(** [a % b] on non-negative ints. *)
Definition py_mod (a b : nat) : result nat :=
  if decide (b = 0%nat) then Raise ZeroDivisionError else Ok (a `mod` b)%nat.

(** [l[-1]]. *)
Definition py_last {A} (l : list A) : outcome A :=
  match last l with
  | Some x => Done x
  | None => Failed IndexError
  end.

(** Lines 109-112.  [t[-1] + dt] is a float64 sum: the exact sum, rounded.
    The rounding [rnd] is a parameter; the time list is the one place where
    the script accumulates a sum over the passes. *)
Definition append_time (rnd : Qc → Qc) (dt0 : Qc) (it : nat) (ts : vec)
    : outcome vec :=
  if decide (it = 0%nat) then Done (ts ++ [dt0])
  else x ← py_last ts; Done (ts ++ [rnd (x + dt0)]).

(** [l[start:stop:step]] read from a list. *)
Definition get_slice {A} (start stop : option Z) (step : nat) (l : list A)
    : result (list A) :=
  idx ← slice_indices (length l) start stop step;
  Ok (omap (λ i, l !! i) (idx : list nat)).

(** [1e-40] and [1e-99]. *)
Definition tiny_velocity : Qc := Q2Qc (1 # 10 ^ 40).
Definition tiny_speed : Qc := Q2Qc (1 # 10 ^ 99).

Definition field_map (f : Qc → Qc) (F : list vec) : list vec :=
  (λ r : vec, f <$> r) <$> F.
Definition field_add (F G : list vec) : list vec :=
  zip_with (zip_with Qcplus) F G.

Definition Qcmax (a b : Qc) : Qc := if decide (a < b) then b else a.

(** [np.max] of a two-dimensional array; an empty array raises. *)
Definition np_max (F : list vec) : result Qc :=
  match concat F with
  | [] => Raise ValueError
  | x :: l => Ok (foldl Qcmax x l)
  end.

(** [np.sum] of a one-dimensional array. *)
Definition np_sum (r : vec) : Qc := foldr Qcplus 0 r.

(** [F[i, :]] for a possibly negative row index [i]. *)
Definition py_row (i : Z) (F : list vec) : outcome vec :=
  let j := if decide (i < 0)%Z then (i + Z.of_nat (length F))%Z else i in
  if decide (0 ≤ j)%Z then
    match F !! Z.to_nat j with
    | Some r => Done r
    | None => Failed IndexError
    end
  else Failed IndexError.

(** Lines 117-119. *)
Definition velocity_x (g : Globals) : result (list vec) :=
  F ← vecToField (ny (config g)) (nx (config g))
        (mvmul (dyOpPsi (ops g)) (Psinplus1 g));
  Ok (field_map (λ v, v + tiny_velocity) F).

Definition velocity_y (g : Globals) : result (list vec) :=
  F ← vecToField (ny (config g)) (nx (config g))
        (mvmul (dxOpPsi (ops g)) (Psinplus1 g));
  Ok (field_map (λ v, - v + tiny_velocity) F).

Definition max_speed (ux uy : list vec) : result Qc :=
  m ← np_max (field_add (field_map (λ v, v * v) ux)
                        (field_map (λ v, v * v) uy));
  Ok (tiny_speed + m).

(** Lines 123-124. *)
Definition heat_flux_conduction (g : Globals) : outcome Qc :=
  F ← from_result
        (vecToField (ny (config g)) (nx (config g))
           (vsub (mvmul (dyOpTemp (ops g)) (Tnplus1 g))
                 (rhsDyOpTemp (ops g))));
  r ← py_row (-10) F;
  Done (np_sum (Qcopp <$> r)).

Definition heat_flux_advection (g : Globals) (uy : list vec) : outcome Qc :=
  ru ← py_row (-10) uy;
  F ← from_result (vecToField (ny (config g)) (nx (config g)) (Tnplus1 g));
  rt ← py_row (-10) F;
  Done (dot (vscale (sqrtRa (params g)) ru) rt).

(** Lines 114-130: the lists after the block; [acc] already holds the time
    of this pass. *)
Definition display (ps : PlotSettings) (it : nat) (acc : Accumulators)
    (g : Globals) : outcome Accumulators :=
  r ← from_result (py_mod it (generateEvery ps));
  if decide (r = 0%nat) then
    if generateAnimation ps then
      ux ← from_result (velocity_x g);
      uy ← from_result (velocity_y g);
      maxSpeed ← from_result (max_speed ux uy);
      heatFluxConduction ← heat_flux_conduction g;
      heatFluxAdvection ← heat_flux_advection g uy;
      Done {| t := t acc;
              maxSpeedArr := maxSpeedArr acc ++ [maxSpeed];
              heatFluxConductionArr :=
                heatFluxConductionArr acc ++ [heatFluxConduction];
              heatFluxAdvectionArr :=
                heatFluxAdvectionArr acc ++ [heatFluxAdvection];
              totalHeatFluxArr :=
                totalHeatFluxArr acc
                ++ [heatFluxAdvection + heatFluxConduction] |}
    else Done acc
  else Done acc.

(** The time axis the lists are plotted against (lines 145, 154-156). *)
Definition sampled_times (ps : PlotSettings) (acc : Accumulators)
    : result vec :=
  get_slice None None (generateEvery ps) (t acc).

Definition set_time (acc : Accumulators) (ts : vec) : Accumulators :=
  {| t := ts; maxSpeedArr := maxSpeedArr acc;
     heatFluxConductionArr := heatFluxConductionArr acc;
     heatFluxAdvectionArr := heatFluxAdvectionArr acc;
     totalHeatFluxArr := totalHeatFluxArr acc |}.

(** The part of a pass before the numerical part (lines 109-177): the new
    time, then the display block. *)
Definition display_part (ps : PlotSettings) (rnd : Qc → Qc) (it : nat)
    (s : Accumulators * Globals) : outcome Accumulators :=
  ts ← append_time rnd (dt (config s.2)) it (t s.1);
  display ps it (set_time s.1 ts) s.2.

(** One pass of the loop (lines 107-214). *)
Definition loop_pass (lib : Library) (ps : PlotSettings) (rnd : Qc → Qc)
    (it : nat) (s : Accumulators * Globals)
    : outcome (Accumulators * Globals) :=
  acc ← display_part ps rnd it s;
  g ← from_result (step lib s.2);
  Done (acc, g).

(** The passes [it, it + 1, ..., it + k - 1]. *)
Fixpoint loop_from (lib : Library) (ps : PlotSettings) (rnd : Qc → Qc)
    (it k : nat) (s : Accumulators * Globals)
    : outcome (Accumulators * Globals) :=
  match k with
  | O => Done s
  | S k' => s' ← loop_pass lib ps rnd it s; loop_from lib ps rnd (S it) k' s'
  end.

(** The whole script: the set-up, then [for it in range(nt + 1)]. *)
Definition main (lib : Library) (ps : PlotSettings) (rnd : Qc → Qc)
    (dt0 : Qc) (nt0 ny0 nx0 : nat) (p : Params) (o : Operators)
    : outcome (Accumulators * Globals) :=
  g ← from_result (setup lib dt0 nt0 ny0 nx0 p o);
  loop_from lib ps rnd 0 (S (nt (config g))) (no_accumulators, g).

(** What a run leaves behind: the recorded lists and the two fields. *)
Definition observable (s : Accumulators * Globals)
    : Accumulators * (vec * vec) :=
  (s.1, fields s.2).

Definition fmap_outcome {A B} (f : A → B) (r : outcome A) : outcome B :=
  match r with
  | Done a => Done (f a)
  | Failed e => Failed e
  end.

(** What the display block reads has one entry per grid point. *)
Definition display_shaped (g : Globals) : Prop :=
  length (dyOpPsi (ops g)) = npoints g
  ∧ length (dxOpPsi (ops g)) = npoints g
  ∧ length (dyOpTemp (ops g)) = npoints g
  ∧ length (rhsDyOpTemp (ops g)) = npoints g
  ∧ length (Tnplus1 g) = npoints g.

(** ** A 10 by 2 instance for the display block *)

Definition still_lib (n : nat) : Library :=
  {| constructC := λ _ _ _, (zero_matrix n, replicate n 0);
     factorized := unit_factorized;
     spsolve := unit_spsolve |}.

Definition still_ops (n : nat) : Operators :=
  {| dyOpPsi := zero_matrix n; dxOpPsi := zero_matrix n; dlOpPsi := eye n;
     dlOpTemp := zero_matrix n; rhsDlOpTemp := replicate n 0;
     dxOpTemp := eye n; rhsDxOpTemp := replicate n 0;
     dyOpTemp := eye n; rhsDyOpTemp := replicate n 0 |}.

Definition still_state (ny0 nx0 : nat) : Globals :=
  {| config := {| dt := main_dt; nt := 2; ny := ny0; nx := nx0;
                  dy := one_half; dx := one_half |};
     params := main_params;
     ops := still_ops (nx0 * ny0);
     psiElim := eye (nx0 * ny0);
     factor1 := Some (λ b, Ok b);
     Tnplus1 := replicate (nx0 * ny0) one_half;
     Psinplus1 := replicate (nx0 * ny0) 0 |}.

Definition fast_plot_settings : PlotSettings :=
  {| generateAnimation := true; generateEvery := 2 |}.

Definition quiet_plot_settings : PlotSettings :=
  {| generateAnimation := false; generateEvery := 10 |}.

(** A rounding for the examples: down to a multiple of [1/1024]. *)
Definition coarse_round (x : Qc) : Qc :=
  Qc_of_int ((Qnum x * 1024) `div` Z.pos (Qden x)) / Qc_of_int 1024.

(** ** An instance with a singular temperature system

    scipy treats an exactly singular matrix differently in its two entry
    points: [factorized] raises [RuntimeError], while [spsolve] warns and
    returns a vector that solves nothing (its entries are NaN).  The
    scalars here have no NaN; [lenient_spsolve] returns zeros in its place.
    What it keeps of scipy's behaviour is that the call returns. *)
Definition lenient_spsolve (A : matrix) (b : vec) : result vec :=
  match unit_spsolve A b with
  | Ok x => Ok x
  | Raise _ => Ok (replicate (length b) 0)
  end.

(** [C = -200 I] on the 20 points of the 10 by 2 grid: [I + (dt/2) C] is
    the zero matrix at [dt = 1/100]. *)
Definition lenient_lib : Library :=
  {| constructC := λ _ _ _,
       (mscale (Qc_of_int (-200)) (eye 20), replicate 20 0);
     factorized := unit_factorized;
     spsolve := lenient_spsolve |}.

(** * Basic facts *)

(** ** The error monad *)

Lemma bind_Ok {A B} (m : result A) (f : A → result B) (b : B) :
  (m ≫= f) = Ok b ↔ ∃ a, m = Ok a ∧ f a = Ok b.
Proof.
  destruct m as [a|e]; simpl; split.
  - intros H. by exists a.
  - by intros (a' & [= <-] & H).
  - intros [=].
  - by intros (a' & [=] & _).
Qed.

Ltac inv_bind H :=
  repeat match type of H with
  | (_ ≫= _) = Ok _ =>
      let a := fresh "a" in
      let Ha := fresh "Ha" in
      apply bind_Ok in H as (a & Ha & H)
  end.

(** ** Slices *)

Lemma in_range_alt lo hi step k :
  (0 < step)%nat →
  in_range lo hi step k ↔ (k < hi)%nat ∧ ∃ q, k = (lo + q * step)%nat.
Proof.
  intros Hs. unfold in_range. split.
  - intros [[Hlo Hhi] Hm]. split; [done|].
    apply Nat.Div0.mod_divides in Hm as [q Hq].
    exists q. lia.
  - intros [Hhi [q ->]]. split; [lia|].
    replace (lo + q * step - lo)%nat with (q * step)%nat by lia.
    apply Nat.Div0.mod_mul.
Qed.

Lemma elem_of_range_from fuel lo hi step k :
  (0 < step)%nat → (hi ≤ lo + fuel)%nat →
  k ∈ range_from fuel lo hi step ↔ in_range lo hi step k.
Proof.
  intros Hs. rewrite in_range_alt by done.
  revert lo. induction fuel as [|fuel IH]; intros lo Hf; simpl.
  - rewrite elem_of_nil. split; [done|]. intros [? [q ->]]. lia.
  - case_decide as Hlt.
    + rewrite elem_of_cons, IH by lia. split.
      * intros [->|[? [q ->]]]; (split; [lia|]).
        -- exists 0%nat. lia.
        -- exists (S q). lia.
      * intros [? [[|q] ->]]; [left; lia|right].
        split; [done|]. exists q. lia.
    + rewrite elem_of_nil. split; [done|]. intros [? [q ->]]. lia.
Qed.

Lemma lookup_insert_same {A} (l : list A) i (v : A) :
  <[i:=v]> l !! i = (λ _, v) <$> l !! i.
Proof.
  destruct (decide (i < length l)%nat) as [Hi|Hi].
  - rewrite list_lookup_insert_eq by done.
    apply lookup_lt_is_Some in Hi as [x ->]. done.
  - rewrite list_insert_ge by lia.
    rewrite (proj2 (lookup_ge_None l i)) by lia. done.
Qed.

Lemma lookup_set_all {A} (v : A) idx (l : list A) k :
  set_all v idx l !! k
  = if decide (k ∈ idx) then (λ _, v) <$> l !! k else l !! k.
Proof.
  unfold set_all. revert l. induction idx as [|i idx IH]; intros l; simpl.
  - destruct (decide (k ∈ [])) as [H|H]; [by apply elem_of_nil in H|done].
  - rewrite IH. destruct (decide (k = i)) as [->|Hne].
    + rewrite lookup_insert_same.
      rewrite (decide_True (P := i ∈ i :: idx)) by apply list_elem_of_here.
      case_decide; [|done]. by destruct (l !! i).
    + rewrite list_lookup_insert_ne by done.
      destruct (decide (k ∈ idx)) as [Hin|Hin].
      * by rewrite decide_True by (by apply list_elem_of_further).
      * rewrite decide_False; [done|].
        by intros [?|?]%elem_of_cons.
Qed.

Lemma length_set_all {A} (v : A) idx (l : list A) :
  length (set_all v idx l) = length l.
Proof.
  unfold set_all. revert l. induction idx as [|i idx IH]; intros l; simpl.
  - done.
  - by rewrite IH, length_insert.
Qed.

Lemma norm_bound_le len i : (norm_bound len i ≤ len)%nat.
Proof. unfold norm_bound. case_decide; lia. Qed.

Lemma slice_hi_le len stop : (slice_hi len stop ≤ len)%nat.
Proof. destruct stop; simpl; [apply norm_bound_le|done]. Qed.

(** A slice assignment with a positive step succeeds, keeps the length and
    overwrites exactly the selected positions. *)
Lemma assign_slice_spec {A} start stop step (v : A) (a : list A) :
  (0 < step)%nat →
  ∃ a', assign_slice start stop step v a = Ok a'
    ∧ length a' = length a
    ∧ ∀ k, a' !! k
           = if decide (in_range (slice_lo (length a) start)
                                 (slice_hi (length a) stop) step k)
             then (λ _, v) <$> a !! k else a !! k.
Proof.
  intros Hs. unfold assign_slice, slice_indices.
  rewrite decide_False by lia. simpl.
  eexists. split; [done|]. split; [apply length_set_all|].
  intros k. rewrite lookup_set_all.
  pose proof (slice_hi_le (length a) stop).
  apply decide_ext, elem_of_range_from; lia.
Qed.

Lemma assign_slice_zero_step {A} start stop (v : A) (a : list A) :
  assign_slice start stop 0 v a = Raise ValueError.
Proof. done. Qed.

(** ** Linear algebra *)

Lemma length_mvmul M x : length (mvmul M x) = length M.
Proof. unfold mvmul. by rewrite length_fmap. Qed.

Lemma length_vscale a v : length (vscale a v) = length v.
Proof. unfold vscale. by rewrite length_fmap. Qed.

Lemma length_mscale a M : length (mscale a M) = length M.
Proof. unfold mscale. by rewrite length_fmap. Qed.

Lemma length_diags d : length (diags d) = length d.
Proof. unfold diags. by rewrite length_imap. Qed.

Lemma length_eye n : length (eye n) = n.
Proof. unfold eye. by rewrite length_diags, length_replicate. Qed.

Lemma dot_cons a r b x : dot (a :: r) (b :: x) = a * b + dot r x.
Proof. done. Qed.

Lemma dot_nil_r r : dot r [] = 0.
Proof. by destruct r. Qed.

Lemma dot_zero_row n x : dot (replicate n 0) x = 0.
Proof.
  revert x. induction n as [|n IH]; intros [|b x]; try done.
  simpl replicate. rewrite dot_cons, IH. ring.
Qed.

(** A row with a single entry [d] at column [i] picks out [d * x_i]. *)
Lemma dot_single n i d x :
  (i < n)%nat → dot (<[i:=d]> (replicate n 0)) x = d * default 0 (x !! i).
Proof.
  revert i x. induction n as [|n IH]; intros i x Hi; [lia|].
  destruct x as [|b x].
  - rewrite dot_nil_r. simpl. ring.
  - destruct i as [|i]; simpl replicate; simpl insert.
    + rewrite dot_cons, dot_zero_row. simpl. ring.
    + rewrite dot_cons, IH by lia.
      change ((b :: x) !! S i) with (x !! i). ring.
Qed.

Lemma lookup_mvmul_diags d x i :
  mvmul (diags d) x !! i = (λ di, di * default 0 (x !! i)) <$> d !! i.
Proof.
  unfold mvmul, diags. rewrite list_lookup_fmap, list_lookup_imap.
  destruct (d !! i) as [di|] eqn:Hdi; [|done]. simpl. f_equal.
  apply dot_single. by eapply lookup_lt_Some.
Qed.

Lemma mvmul_eye n x : length x = n → mvmul (eye n) x = x.
Proof.
  intros Hx. apply list_eq. intros i. unfold eye.
  rewrite lookup_mvmul_diags.
  destruct (decide (i < n)%nat) as [Hi|Hi].
  - rewrite lookup_replicate_2 by done.
    destruct (lookup_lt_is_Some_2 x i) as [xi Hxi]; [lia|].
    rewrite Hxi. simpl. f_equal. ring.
  - rewrite (proj1 (lookup_replicate_None n 1 i)) by lia.
    symmetry. apply lookup_ge_None. lia.
Qed.

Lemma dot_vscale_l a r x : dot (vscale a r) x = a * dot r x.
Proof.
  revert x. induction r as [|c r IH]; intros [|b x]; simpl;
    try (unfold dot; simpl; ring).
  change (dot (a * c :: vscale a r) (b :: x) = a * dot (c :: r) (b :: x)).
  rewrite !dot_cons, IH. ring.
Qed.

Lemma mvmul_mscale a M x : mvmul (mscale a M) x = vscale a (mvmul M x).
Proof.
  unfold mvmul, mscale, vscale. rewrite <- !list_fmap_compose.
  apply list_fmap_ext. intros _ r _. simpl. apply dot_vscale_l.
Qed.

Lemma dot_vadd_l r s x :
  length r = length s → dot (vadd r s) x = dot r x + dot s x.
Proof.
  revert s x. induction r as [|c r IH]; intros [|c' s] x Hl; try done.
  destruct x as [|b x]; [by rewrite !dot_nil_r|].
  change (dot (c + c' :: vadd r s) (b :: x)
          = dot (c :: r) (b :: x) + dot (c' :: s) (b :: x)).
  rewrite !dot_cons, IH by (simpl in Hl; lia). ring.
Qed.

Lemma dot_vsub_l r s x :
  length r = length s → dot (vsub r s) x = dot r x - dot s x.
Proof.
  revert s x. induction r as [|c r IH]; intros [|c' s] x Hl; try done.
  destruct x as [|b x]; [by rewrite !dot_nil_r|].
  change (dot (c - c' :: vsub r s) (b :: x)
          = dot (c :: r) (b :: x) - dot (c' :: s) (b :: x)).
  rewrite !dot_cons, IH by (simpl in Hl; lia). ring.
Qed.

Lemma square_rows_agree n M N :
  square n M → square n N → Forall2 (λ r s, length r = length s) M N.
Proof.
  intros [HM HrM] [HN HrN].
  apply Forall2_same_length_lookup_2; [congruence|].
  intros i r s Hr Hs.
  rewrite (Forall_lookup_1 _ _ _ _ HrM Hr).
  by rewrite (Forall_lookup_1 _ _ _ _ HrN Hs).
Qed.

Lemma mvmul_madd n M N x :
  square n M → square n N →
  mvmul (madd M N) x = vadd (mvmul M x) (mvmul N x).
Proof.
  intros HM HN. pose proof (square_rows_agree n M N HM HN) as H.
  clear HM HN. induction H as [|r s M' N' Hrs _ IH]; [done|].
  simpl. f_equal; [by apply dot_vadd_l|apply IH].
Qed.

Lemma mvmul_msub n M N x :
  square n M → square n N →
  mvmul (msub M N) x = vsub (mvmul M x) (mvmul N x).
Proof.
  intros HM HN. pose proof (square_rows_agree n M N HM HN) as H.
  clear HM HN. induction H as [|r s M' N' Hrs _ IH]; [done|].
  simpl. f_equal; [by apply dot_vsub_l|apply IH].
Qed.

Lemma square_diags d : square (length d) (diags d).
Proof.
  split; [apply length_diags|].
  apply Forall_forall. intros r Hr.
  apply list_elem_of_lookup in Hr as [i Hi].
  unfold diags in Hi. rewrite list_lookup_imap in Hi.
  destruct (d !! i); simplify_eq/=.
  by rewrite length_insert, length_replicate.
Qed.

Lemma square_eye n : square n (eye n).
Proof.
  unfold eye. pose proof (square_diags (replicate n 1)) as H.
  by rewrite length_replicate in H.
Qed.

Lemma square_mscale n a M : square n M → square n (mscale a M).
Proof.
  intros [HM Hr]. split; [by rewrite length_mscale|].
  unfold mscale. apply Forall_fmap. eapply Forall_impl; [exact Hr|].
  intros r Hl. simpl. by rewrite length_vscale.
Qed.

(** The two Crank-Nicolson matrices applied to a vector, written out. *)
Lemma mvmul_eye_plus n a C x :
  square n C → length x = n →
  mvmul (madd (eye n) (mscale a C)) x = vadd x (vscale a (mvmul C x)).
Proof.
  intros HC Hx.
  rewrite (mvmul_madd n) by auto using square_eye, square_mscale.
  by rewrite mvmul_eye, mvmul_mscale.
Qed.

Lemma mvmul_eye_minus n a C x :
  square n C → length x = n →
  mvmul (msub (eye n) (mscale a C)) x = vsub x (vscale a (mvmul C x)).
Proof.
  intros HC Hx.
  rewrite (mvmul_msub n) by auto using square_eye, square_mscale.
  by rewrite mvmul_eye, mvmul_mscale.
Qed.

(** ** The slices main.py uses, as index predicates *)

Lemma mod_offset n lo k :
  (lo < n)%nat → (lo ≤ k)%nat →
  ((k - lo) `mod` n = 0 ↔ k `mod` n = lo)%nat.
Proof.
  intros Hlo Hk. split.
  - intros [q Hq]%Nat.Div0.mod_divides.
    replace k with (lo + q * n)%nat by lia.
    rewrite Nat.Div0.mod_add. by apply Nat.mod_small.
  - intros Hm. pose proof (Nat.div_mod_eq k n) as Hd.
    apply Nat.Div0.mod_divides. exists (k `div` n)%nat. lia.
Qed.

Lemma mod_minus_self n k :
  (0 < n)%nat → (n ≤ k)%nat → ((k - n) `mod` n = k `mod` n)%nat.
Proof.
  intros Hn Hk. replace k with (k - n + 1 * n)%nat at 2 by lia.
  by rewrite Nat.Div0.mod_add.
Qed.

Lemma norm_bound_0 len : norm_bound len 0 = 0%nat.
Proof. unfold norm_bound. rewrite decide_False by lia. lia. Qed.

Lemma norm_bound_nat len n : norm_bound len (Z.of_nat n) = (n `min` len)%nat.
Proof. unfold norm_bound. rewrite decide_False by lia. by rewrite Nat2Z.id. Qed.

Lemma norm_bound_pred len n :
  (0 < n)%nat → norm_bound len (Z.of_nat n - 1) = ((n - 1) `min` len)%nat.
Proof. intros Hn. unfold norm_bound. rewrite decide_False by lia. lia. Qed.

Lemma norm_bound_neg len n :
  (0 < n)%nat → norm_bound len (- Z.of_nat n) = (len - n)%nat.
Proof. intros Hn. unfold norm_bound. rewrite decide_True by lia. lia. Qed.

(** [a[0::n]] selects the entries whose index is a multiple of [n]. *)
Lemma in_stride_bottom len n k :
  (0 < n)%nat →
  in_range (slice_lo len (Some 0%Z)) (slice_hi len None) n k
  ↔ (k < len)%nat ∧ (k `mod` n = 0)%nat.
Proof.
  intros Hn. unfold in_range, slice_lo, slice_hi. cbn [from_option].
  rewrite norm_bound_0, Nat.sub_0_r. intuition lia.
Qed.

(** [a[n-1::n]] selects the entries whose index is [n - 1] modulo [n]. *)
Lemma in_stride_top len n k :
  (0 < n)%nat →
  in_range (slice_lo len (Some (Z.of_nat n - 1)%Z)) (slice_hi len None) n k
  ↔ (k < len)%nat ∧ (k `mod` n = n - 1)%nat.
Proof.
  intros Hn. unfold in_range, slice_lo, slice_hi. cbn [from_option].
  rewrite norm_bound_pred by done.
  pose proof (Nat.mod_upper_bound k n).
  destruct (decide (n - 1 ≤ k)%nat) as [Hk|Hk].
  - rewrite <- (mod_offset n (n - 1) k) by lia.
    split.
    + intros [[H1 H2] H3]. split; [done|].
      by replace ((n - 1) `min` len)%nat with (n - 1)%nat in H3 by lia.
    + intros [H1 H2]. split; [lia|].
      by replace ((n - 1) `min` len)%nat with (n - 1)%nat by lia.
  - split; [lia|]. intros [H1 H2].
    rewrite Nat.mod_small in H2 by lia. lia.
Qed.

(** [a[0:n]] selects the first [n] entries. *)
Lemma in_block_first len n k :
  in_range (slice_lo len (Some 0%Z)) (slice_hi len (Some (Z.of_nat n))) 1 k
  ↔ (k < len)%nat ∧ (k < n)%nat.
Proof.
  unfold in_range, slice_lo, slice_hi. cbn [from_option].
  rewrite norm_bound_0, norm_bound_nat, Nat.mod_1_r. lia.
Qed.

(** [a[-n:]] selects the last [n] entries. *)
Lemma in_block_last len n k :
  (0 < n)%nat →
  in_range (slice_lo len (Some (- Z.of_nat n)%Z)) (slice_hi len None) 1 k
  ↔ (k < len)%nat ∧ (len - n ≤ k)%nat.
Proof.
  intros Hn. unfold in_range, slice_lo, slice_hi. cbn [from_option].
  rewrite norm_bound_neg by done. rewrite Nat.mod_1_r. lia.
Qed.

(** [a[n::n]] selects the multiples of [n] from [n] on. *)
Lemma in_stride_from len n k :
  (0 < n)%nat →
  in_range (slice_lo len (Some (Z.of_nat n))) (slice_hi len None) n k
  ↔ (k < len)%nat ∧ (n ≤ k)%nat ∧ (k `mod` n = 0)%nat.
Proof.
  intros Hn. unfold in_range, slice_lo, slice_hi. cbn [from_option].
  rewrite norm_bound_nat.
  split.
  - intros [[H1 H2] H3].
    assert (n ≤ k)%nat by lia.
    replace (n `min` len)%nat with n in H3 by lia.
    rewrite mod_minus_self in H3 by lia. done.
  - intros (H1 & H2 & H3).
    replace (n `min` len)%nat with n by lia.
    rewrite mod_minus_self by lia. lia.
Qed.

(** * The elimination mask *)

Lemma bind_Ok_l {A B} (a : A) (f : A → result B) : (Ok a ≫= f) = f a.
Proof. done. Qed.

(** Replace every slice predicate in the context by its arithmetic
    reading, given as an equivalence in the context. *)
Ltac read_slices :=
  repeat match goal with
  | Hi : ?P ↔ _, H : ?P |- _ => apply Hi in H
  | Hi : ?P ↔ _, H : ¬ ?P |- _ => rewrite Hi in H
  end.

Lemma psiElim_diagonal_spec ny0 nx0 :
  (0 < ny0)%nat →
  ∃ d, psiElim_diagonal ny0 nx0 = Ok d
    ∧ length d = (nx0 * ny0)%nat
    ∧ ∀ k, (k < nx0 * ny0)%nat →
        d !! k = Some (if decide (boundary ny0 nx0 k) then 0 else 1).
Proof.
  intros Hn. unfold psiElim_diagonal.
  destruct (assign_slice_spec (Some 0%Z) (Some (Z.of_nat ny0)) 1 0
              (replicate (nx0 * ny0) 1)) as (d1 & E1 & L1 & K1); [lia|].
  destruct (assign_slice_spec (Some (- Z.of_nat ny0)%Z) None 1 0 d1)
    as (d2 & E2 & L2 & K2); [lia|].
  destruct (assign_slice_spec (Some (Z.of_nat ny0)) None ny0 0 d2)
    as (d3 & E3 & L3 & K3); [done|].
  destruct (assign_slice_spec (Some (Z.of_nat ny0 - 1)%Z) None ny0 0 d3)
    as (d4 & E4 & L4 & K4); [done|].
  rewrite length_replicate in L1.
  rewrite E1, bind_Ok_l, E2, bind_Ok_l, E3, bind_Ok_l.
  exists d4. split; [done|]. split; [congruence|].
  intros k Hk.
  rewrite K4, K3, K2, K1, L3, L2, L1, length_replicate.
  rewrite lookup_replicate_2 by done.
  pose proof (in_block_first (nx0 * ny0) ny0 k) as H1.
  pose proof (in_block_last (nx0 * ny0) ny0 k Hn) as H2.
  pose proof (in_stride_from (nx0 * ny0) ny0 k Hn) as H3.
  pose proof (in_stride_top (nx0 * ny0) ny0 k Hn) as H4.
  unfold boundary.
  repeat case_decide; simpl; try done; exfalso; read_slices;
    clear K1 K2 K3 K4 H1 H2 H3 H4; lia.
Qed.

Lemma lookup_diags d i j di :
  d !! i = Some di → (j < length d)%nat →
  diags d !! i ≫= (.!! j) = Some (if decide (i = j) then di else 0).
Proof.
  intros Hi Hj. unfold diags. rewrite list_lookup_imap, Hi. simpl.
  case_decide as Hij.
  - subst j. apply list_lookup_insert_eq. by rewrite length_replicate.
  - rewrite list_lookup_insert_ne by done. by apply lookup_replicate_2.
Qed.

(** C4.  For a grid with at least one row, the mask is built without an
    exception; applied to any vector of length [ny * nx] it returns a vector
    of the same length whose entries on the four edges (the first [ny] and
    the last [ny] indices and every index congruent to [0] or [ny - 1]
    modulo [ny]) are [0] and whose other entries are those of the argument;
    the mask is the diagonal matrix with [1] at the interior indices and [0]
    everywhere else. *)
Theorem psiElim_zeroes_exactly_boundary ny0 nx0 :
  (0 < ny0)%nat →
  ∃ E, make_psiElim ny0 nx0 = Ok E
    ∧ (∀ x, length x = (ny0 * nx0)%nat →
         length (mvmul E x) = (ny0 * nx0)%nat
         ∧ ∀ i, (i < ny0 * nx0)%nat →
             mvmul E x !! i
             = if decide (boundary ny0 nx0 i) then Some 0 else x !! i)
    ∧ (∀ i j, (i < ny0 * nx0)%nat → (j < ny0 * nx0)%nat →
         E !! i ≫= (.!! j)
         = Some (if decide (i = j ∧ ¬ boundary ny0 nx0 i) then 1 else 0)).
Proof.
  intros Hn. destruct (psiElim_diagonal_spec ny0 nx0 Hn) as (d & Ed & Ld & Kd).
  unfold make_psiElim. rewrite Ed, bind_Ok_l. eexists. split; [done|].
  rewrite (Nat.mul_comm ny0 nx0). split.
  - intros x Hx. split; [by rewrite length_mvmul, length_diags|].
    intros i Hi. rewrite lookup_mvmul_diags, Kd by done.
    destruct (lookup_lt_is_Some_2 x i) as [xi Hxi]; [lia|].
    rewrite Hxi. simpl. case_decide; f_equal; ring.
  - intros i j Hi Hj. rewrite (lookup_diags d i j _ (Kd i Hi)) by lia.
    f_equal. repeat case_decide; try done; exfalso; intuition.
Qed.

Lemma psiElim_zeroes_exactly_boundary_witness :
  ∃ E, make_psiElim main_ny main_nx = Ok E
    ∧ (∀ x, length x = (main_ny * main_nx)%nat →
         length (mvmul E x) = (main_ny * main_nx)%nat
         ∧ ∀ i, (i < main_ny * main_nx)%nat →
             mvmul E x !! i
             = if decide (boundary main_ny main_nx i) then Some 0 else x !! i)
    ∧ (∀ i j, (i < main_ny * main_nx)%nat → (j < main_ny * main_nx)%nat →
         E !! i ≫= (.!! j)
         = Some (if decide (i = j ∧ ¬ boundary main_ny main_nx i)
                 then 1 else 0)).
Proof.
  apply (psiElim_zeroes_exactly_boundary main_ny main_nx).
  unfold main_ny. lia.
Defined.

(** * Dirichlet enforcement *)

Lemma set_shape_Ok n v v' : set_shape n v = Ok v' ↔ v' = v ∧ length v = n.
Proof.
  unfold set_shape. case_decide; split.
  - by intros [= ->].
  - by intros [-> _].
  - intros [=].
  - intros [_ ?]. done.
Qed.

(** The overwrite of the temperature boundary rows. *)
Lemma enforceT_spec g T :
  (0 < ny (config g))%nat →
  ∃ T', enforceT g T = Ok T'
    ∧ length T' = length T
    ∧ ∀ k, (k < length T)%nat →
        T' !! k
        = if decide (k `mod` ny (config g) = ny (config g) - 1)%nat
          then Some (Ttop (params g))
          else if decide (k `mod` ny (config g) = 0)%nat
               then Some (Tbottom (params g))
               else T !! k.
Proof.
  intros Hn. unfold enforceT. set (n := ny (config g)) in *.
  destruct (assign_slice_spec (Some 0%Z) None n (Tbottom (params g)) T)
    as (T1 & E1 & L1 & K1); [done|].
  destruct (assign_slice_spec (Some (Z.of_nat n - 1)%Z) None n
              (Ttop (params g)) T1) as (T2 & E2 & L2 & K2); [done|].
  rewrite E1, bind_Ok_l. exists T2. split; [done|]. split; [congruence|].
  intros k Hk. rewrite K2, K1, L1.
  destruct (lookup_lt_is_Some_2 T k Hk) as [t Ht]. rewrite Ht.
  pose proof (in_stride_bottom (length T) n k Hn) as H1.
  pose proof (in_stride_top (length T) n k Hn) as H2.
  repeat case_decide; simpl; try done; exfalso; read_slices;
    clear K1 K2 H1 H2; lia.
Qed.

(** The overwrite of the four edges of the stream function. *)
Lemma enforcePsi_spec g P :
  (0 < ny (config g))%nat → length P = npoints g →
  ∃ P', enforcePsi g P = Ok P'
    ∧ length P' = length P
    ∧ ∀ k, (k < length P)%nat →
        P' !! k
        = if decide (boundary (ny (config g)) (nx (config g)) k)
          then Some 0 else P !! k.
Proof.
  intros Hn HP. unfold enforcePsi, npoints in *.
  generalize dependent (ny (config g)). intros n Hn HP.
  generalize dependent (nx (config g)). intros m HP.
  destruct (assign_slice_spec (Some 0%Z) None n 0 P)
    as (P1 & E1 & L1 & K1); [done|].
  destruct (assign_slice_spec (Some (Z.of_nat n - 1)%Z) None n 0 P1)
    as (P2 & E2 & L2 & K2); [done|].
  destruct (assign_slice_spec (Some 0%Z) (Some (Z.of_nat n)) 1 0 P2)
    as (P3 & E3 & L3 & K3); [lia|].
  destruct (assign_slice_spec (Some (- Z.of_nat n)%Z) None 1 0 P3)
    as (P4 & E4 & L4 & K4); [lia|].
  cbn zeta. rewrite E1, bind_Ok_l, E2, bind_Ok_l, E3, bind_Ok_l.
  exists P4. split; [done|]. split; [congruence|].
  intros k Hk. rewrite K4, K3, K2, K1, L3, L2, L1.
  destruct (lookup_lt_is_Some_2 P k Hk) as [t Ht]. rewrite Ht.
  pose proof (in_stride_bottom (length P) n k Hn) as H1.
  pose proof (in_stride_top (length P) n k Hn) as H2.
  pose proof (in_block_first (length P) n k) as H3.
  pose proof (in_block_last (length P) n k Hn) as H4.
  unfold boundary.
  repeat case_decide; simpl; try done; exfalso; read_slices;
    clear K1 K2 K3 K4 H1 H2 H3 H4; lia.
Qed.

Lemma enforceT_params g g' T :
  config g' = config g →
  Tbottom (params g') = Tbottom (params g) →
  Ttop (params g') = Ttop (params g) →
  enforceT g' T = enforceT g T.
Proof. unfold enforceT. by intros -> -> ->. Qed.

Lemma enforcePsi_params g g' P :
  config g' = config g → enforcePsi g' P = enforcePsi g P.
Proof. unfold enforcePsi. by intros ->. Qed.

(** Both overwrites are idempotent. *)
Lemma enforceT_idempotent g T T' :
  (0 < ny (config g))%nat → enforceT g T = Ok T' → enforceT g T' = Ok T'.
Proof.
  intros Hn HT.
  destruct (enforceT_spec g T Hn) as (T1 & E1 & L1 & K1).
  destruct (enforceT_spec g T' Hn) as (T2 & E2 & L2 & K2).
  rewrite HT in E1. injection E1 as <-. rewrite E2. f_equal.
  apply list_eq. intros k.
  destruct (decide (k < length T')%nat) as [Hk|Hk].
  - rewrite K2 by done. rewrite K1 by lia. by repeat case_decide.
  - rewrite !(proj2 (lookup_ge_None _ _)) by lia. done.
Qed.

Lemma enforcePsi_idempotent g P P' :
  (0 < ny (config g))%nat → length P = npoints g →
  enforcePsi g P = Ok P' → enforcePsi g P' = Ok P'.
Proof.
  intros Hn HP HE.
  destruct (enforcePsi_spec g P Hn HP) as (P1 & E1 & L1 & K1).
  rewrite HE in E1. injection E1 as <-.
  destruct (enforcePsi_spec g P' Hn) as (P2 & E2 & L2 & K2); [congruence|].
  rewrite E2. f_equal.
  apply list_eq. intros k.
  destruct (decide (k < length P')%nat) as [Hk|Hk].
  - rewrite K2 by done. rewrite K1 by lia. by repeat case_decide.
  - rewrite !(proj2 (lookup_ge_None _ _)) by lia. done.
Qed.

(** * The loop body *)

Lemma step_Ok lib g g' :
  step lib g = Ok g' ↔
  ∃ Tsol Psol,
    solveT lib g = Ok Tsol ∧ length Tsol = npoints g
    ∧ enforceT g Tsol = Ok (Tnplus1 g')
    ∧ solvePsi lib g (Tnplus1 g') = Ok Psol ∧ length Psol = npoints g
    ∧ enforcePsi g Psol = Ok (Psinplus1 g')
    ∧ g' = set_fields g (Tnplus1 g') (Psinplus1 g').
Proof.
  unfold step. split.
  - intros H. inv_bind H. injection H as <-. simpl.
    apply set_shape_Ok in Ha0 as [-> ?]. apply set_shape_Ok in Ha3 as [-> ?].
    by exists a, a2.
  - intros (Tsol & Psol & H1 & H2 & H3 & H4 & H5 & H6 & H7).
    rewrite H1, bind_Ok_l.
    rewrite (proj2 (set_shape_Ok _ _ _) (conj eq_refl H2)), bind_Ok_l.
    rewrite H3, bind_Ok_l, H4, bind_Ok_l.
    rewrite (proj2 (set_shape_Ok _ _ _) (conj eq_refl H5)), bind_Ok_l.
    rewrite H6, bind_Ok_l. by rewrite H7 at 3.
Qed.

(** A pass of the loop body writes the two fields and nothing else. *)
Lemma step_frame lib g g' :
  step lib g = Ok g' →
  config g' = config g ∧ params g' = params g ∧ ops g' = ops g
  ∧ psiElim g' = psiElim g ∧ factor1 g' = factor1 g.
Proof.
  intros (Tsol & Psol & _ & _ & _ & _ & _ & _ & ->)%step_Ok. done.
Qed.

Lemma iterate_frame lib k g g' :
  iterate lib k g = Ok g' →
  config g' = config g ∧ params g' = params g ∧ ops g' = ops g
  ∧ psiElim g' = psiElim g ∧ factor1 g' = factor1 g.
Proof.
  revert g. induction k as [|k IH]; intros g H; simpl in H.
  - by injection H as <-.
  - apply bind_Ok in H as (g1 & H1 & H2).
    apply step_frame in H1 as (? & ? & ? & ? & ?).
    apply IH in H2 as (? & ? & ? & ? & ?). repeat split; congruence.
Qed.

(** The loop unrolled at its last pass. *)
Lemma iterate_S_last lib k g :
  iterate lib (S k) g = (iterate lib k g ≫= step lib).
Proof.
  revert g. induction k as [|k IH]; intros g.
  - simpl. by destruct (step lib g).
  - change (iterate lib (S (S k)) g) with (step lib g ≫= iterate lib (S k)).
    change (iterate lib (S k) g) with (step lib g ≫= iterate lib k).
    destruct (step lib g) as [g1|e]; [|done]. simpl. apply IH.
Qed.

(** * Set-up *)

Lemma py_truediv_Ok a b q :
  py_truediv a b = Ok q ↔ b ≠ 0%Z ∧ q = Qc_of_int a / Qc_of_int b.
Proof.
  unfold py_truediv. case_decide; split.
  - intros [=].
  - by intros [? _].
  - by intros [= <-].
  - by intros [_ ->].
Qed.

Lemma make_config_Ok dt0 nt0 ny0 nx0 cfg :
  make_config dt0 nt0 ny0 nx0 = Ok cfg ↔
  ny0 ≠ 1%nat
  ∧ cfg = {| dt := dt0; nt := nt0; ny := ny0; nx := nx0;
             dy := Qc_of_int 1 / Qc_of_int (Z.of_nat ny0 - 1);
             dx := Qc_of_int 2 / Qc_of_int (Z.of_nat ny0 - 1) |}.
Proof.
  unfold make_config. split.
  - intros H. inv_bind H. injection H as <-.
    apply py_truediv_Ok in Ha as [Hne ->].
    apply py_truediv_Ok in Ha0 as [_ ->]. split; [lia|done].
  - intros [Hne ->].
    assert (Z.of_nat ny0 - 1 ≠ 0)%Z as Hz by lia.
    rewrite (proj2 (py_truediv_Ok 1 _ _) (conj Hz eq_refl)), bind_Ok_l.
    by rewrite (proj2 (py_truediv_Ok 2 _ _) (conj Hz eq_refl)), bind_Ok_l.
Qed.

(** With no rows the strided assignments of the mask have step zero. *)
Lemma make_psiElim_no_rows nx0 : make_psiElim 0 nx0 = Raise ValueError.
Proof.
  unfold make_psiElim, psiElim_diagonal.
  destruct (assign_slice_spec (Some 0%Z) (Some (Z.of_nat 0)) 1 0
              (replicate (nx0 * 0) 1)) as (d1 & E1 & _); [lia|].
  destruct (assign_slice_spec (Some (- Z.of_nat 0)%Z) None 1 0 d1)
    as (d2 & E2 & _); [lia|].
  by rewrite E1, bind_Ok_l, E2, bind_Ok_l.
Qed.

Lemma setup_Ok lib dt0 nt0 ny0 nx0 p o g :
  setup lib dt0 nt0 ny0 nx0 p o = Ok g →
  make_config dt0 nt0 ny0 nx0 = Ok (config g)
  ∧ params g = p ∧ ops g = o
  ∧ make_psiElim ny0 nx0 = Ok (psiElim g)
  ∧ make_factor1 lib p o = Ok (factor1 g)
  ∧ startT p ny0 nx0 = Ok (Tnplus1 g)
  ∧ Psinplus1 g = startPsi ny0 nx0.
Proof.
  unfold setup. intros H. inv_bind H. by injection H as <-.
Qed.

(** What every state reached by the program inherits from the set-up. *)
Lemma reached_inv lib dt0 nt0 ny0 nx0 p o k g :
  reached lib dt0 nt0 ny0 nx0 p o k g →
  make_config dt0 nt0 ny0 nx0 = Ok (config g)
  ∧ params g = p ∧ ops g = o
  ∧ make_psiElim ny0 nx0 = Ok (psiElim g)
  ∧ make_factor1 lib p o = Ok (factor1 g)
  ∧ ny (config g) = ny0 ∧ nx (config g) = nx0 ∧ (2 ≤ ny0)%nat.
Proof.
  intros (g0 & Hs & Hk).
  apply setup_Ok in Hs as (Hc & Hp & Ho & HE & Hf & _ & _).
  apply iterate_frame in Hk as (-> & -> & -> & -> & ->).
  repeat split; try done.
  - by apply make_config_Ok in Hc as [_ ->].
  - by apply make_config_Ok in Hc as [_ ->].
  - apply make_config_Ok in Hc as [Hne _].
    destruct ny0 as [|[|n]]; [|done|lia].
    by rewrite make_psiElim_no_rows in HE.
Qed.

Lemma reached_step lib dt0 nt0 ny0 nx0 p o k g g' :
  reached lib dt0 nt0 ny0 nx0 p o k g → step lib g = Ok g' →
  reached lib dt0 nt0 ny0 nx0 p o (S k) g'.
Proof.
  intros (g0 & Hs & Hk) Hg. exists g0. split; [done|].
  by rewrite iterate_S_last, Hk, bind_Ok_l.
Qed.

Lemma reached_instance lib dt0 nt0 ny0 nx0 p o k g :
  reached lib dt0 nt0 ny0 nx0 p o k g →
  instance_of dt0 ny0 nx0 p o g ∧ prepared lib g.
Proof.
  intros Hr.
  destruct (reached_inv _ _ _ _ _ _ _ _ _ Hr)
    as (Hc & Hp & Ho & HE & Hf & Hny & Hnx & _).
  apply make_config_Ok in Hc as [_ Hc].
  unfold instance_of, prepared. rewrite Hp, Ho, Hny, Hnx.
  repeat split; try done. by rewrite Hc.
Qed.

(** * The two linear solves *)

Lemma solveT_sound lib g Tsol :
  solver_sound lib → solveT lib g = Ok Tsol →
  mvmul (lhsT g (assembleC lib g).1) Tsol
  = rhsT g (assembleC lib g).1 (assembleC lib g).2 (Tnplus1 g).
Proof.
  intros [Hf Hs]. unfold solveT. destruct (assembleC lib g) as [C rhsC].
  simpl. destruct (useSuperLUFactorizationEq2 (params g)).
  - intros (f & H1 & H2)%bind_Ok. by eapply Hf.
  - apply Hs.
Qed.

Lemma make_factor1_Ok lib p o r :
  make_factor1 lib p o = Ok r →
  if useSuperLUFactorizationEq1 p
  then ∃ f, factorized lib (dlOpPsi o) = Ok f ∧ r = Some f
  else r = None.
Proof.
  unfold make_factor1. destruct (useSuperLUFactorizationEq1 p).
  - intros (f & H1 & [= <-])%bind_Ok. by exists f.
  - by intros [= <-].
Qed.

(** The same equation entry by entry:
    [T' + (dt/2) C T' = dt rhsC + T - (dt/2) C T]. *)
Lemma solveT_update_equation lib g Tsol C rhsC :
  solver_sound lib → solveT lib g = Ok Tsol →
  assembleC lib g = (C, rhsC) → square (npoints g) C →
  length Tsol = npoints g → length (Tnplus1 g) = npoints g →
  vadd Tsol (vscale (dt (config g) / 2) (mvmul C Tsol))
  = vadd (vscale (dt (config g)) rhsC)
         (vsub (Tnplus1 g)
               (vscale (dt (config g) / 2) (mvmul C (Tnplus1 g)))).
Proof.
  intros Hlib HT HC Hsq Hl Hl'.
  pose proof (solveT_sound lib g Tsol Hlib HT) as H.
  rewrite HC in H. unfold lhsT, rhsT in H. simpl in H.
  by rewrite (mvmul_eye_plus (npoints g)), (mvmul_eye_minus (npoints g)) in H.
Qed.

Lemma length_rhsT g C rhsC Tn :
  length C = npoints g → length rhsC = npoints g →
  length (rhsT g C rhsC Tn) = npoints g.
Proof.
  intros HC Hr. unfold rhsT, vadd, msub.
  rewrite length_zip_with, length_vscale, length_mvmul, length_zip_with.
  rewrite length_eye, length_mscale. lia.
Qed.

(** Under an exact library the temperature solve returns the unique
    solution, whichever flag is set. *)
Lemma solveT_exact lib dt0 ny0 nx0 p o g :
  exact_for lib dt0 ny0 nx0 p o → instance_of dt0 ny0 nx0 p o g →
  ∃ x, solveT lib g = Ok x ∧ length x = (nx0 * ny0)%nat
    ∧ mvmul (lhsT g (assembleC lib g).1) x
      = rhsT g (assembleC lib g).1 (assembleC lib g).2 (Tnplus1 g).
Proof.
  intros (Hshape & _ & Hex) (Hdt & Hny & Hnx & Ho & Hs).
  assert (npoints g = (nx0 * ny0)%nat) as Hsize by (unfold npoints; congruence).
  specialize (Hex (Psinplus1 g)). specialize (Hshape (Psinplus1 g)).
  unfold solveT, assembleC, lhsT in *. rewrite Ho, Hs, Hdt, Hsize.
  destruct (constructC lib o (Psinplus1 g) (sqrtRa p)) as [C rhsC] eqn:HC.
  simpl in *. destruct Hshape as [HlC Hlr].
  assert (length (rhsT g C rhsC (Tnplus1 g)) = (nx0 * ny0)%nat) as Hb.
  { rewrite <- Hsize. apply length_rhsT; congruence. }
  destruct Hex as [(f & Hf & Hfb) Hsp _].
  destruct (useSuperLUFactorizationEq2 (params g)).
  - rewrite Hf, bind_Ok_l. destruct (Hfb _ Hb) as (x & -> & Hx). by exists x.
  - destruct (Hsp _ Hb) as (x & -> & Hx). by exists x.
Qed.

Lemma solvePsi_sound lib g T Psol :
  solver_sound lib →
  make_factor1 lib (params g) (ops g) = Ok (factor1 g) →
  solvePsi lib g T = Ok Psol →
  mvmul (dlOpPsi (ops g)) Psol
  = vscale (- sqrtRa (params g))
      (mvmul (psiElim g)
         (vsub (mvmul (dxOpTemp (ops g)) T) (rhsDxOpTemp (ops g)))).
Proof.
  intros [Hf Hs] H1%make_factor1_Ok. unfold solvePsi.
  rewrite <- mvmul_mscale. fold (rhsPsi g T).
  destruct (useSuperLUFactorizationEq1 (params g)).
  - destruct H1 as (f & H1 & ->). by apply Hf.
  - apply Hs.
Qed.

(** * The 3 by 3 instance *)

Lemma unit_factorized_Ok A f :
  unit_factorized A = Ok f →
  A = eye (length A)
  ∧ f = λ b, if decide (length b = length A) then Ok b else Raise ValueError.
Proof. unfold unit_factorized. case_decide; [|done]. by intros [= <-]. Qed.

Lemma unit_solver_sound lib :
  factorized lib = unit_factorized → spsolve lib = unit_spsolve →
  solver_sound lib.
Proof.
  intros Hf Hs. split.
  - intros A f b x. rewrite Hf. intros [HA ->]%unit_factorized_Ok.
    case_decide as Hb; [|done]. intros [= <-].
    rewrite HA. by apply mvmul_eye.
  - intros A b x. rewrite Hs. unfold unit_spsolve.
    intros (f & [HA ->]%unit_factorized_Ok & Hx)%bind_Ok.
    case_decide as Hb; [|done]. injection Hx as <-.
    rewrite HA. by apply mvmul_eye.
Qed.

Lemma unit_lib_sound : solver_sound unit_lib.
Proof. by apply unit_solver_sound. Qed.

(** * Claims about one pass of the loop *)

Lemma diag_solver_sound lib :
  factorized lib = diag_factorized → spsolve lib = diag_spsolve →
  solver_sound lib.
Proof.
  intros Hf Hs.
  assert (∀ A b x, diag_spsolve A b = Ok x → mvmul A x = b) as Hsp.
  { intros A b x. unfold diag_spsolve. case_decide as H; [|done].
    intros [= <-]. by destruct H. }
  split.
  - intros A f b x. rewrite Hf. unfold diag_factorized.
    case_decide; [|done]. intros [= <-]. apply Hsp.
  - intros A b x. rewrite Hs. apply Hsp.
Qed.

Lemma damped_lib_sound : solver_sound damped_lib.
Proof. by apply diag_solver_sound. Qed.

(** The system [solveT] hands to the library, in the values of the program
    instance. *)
Lemma solveT_system lib dt0 nt0 ny0 nx0 p o k g C rhsC :
  reached lib dt0 nt0 ny0 nx0 p o k g →
  constructC lib o (Psinplus1 g) (sqrtRa p) = (C, rhsC) →
  assembleC lib g = (C, rhsC)
  ∧ lhsT g C = crank_nicolson_matrix dt0 (nx0 * ny0) C
  ∧ rhsT g C rhsC (Tnplus1 g)
    = crank_nicolson_rhs dt0 (nx0 * ny0) C rhsC (Tnplus1 g)
  ∧ npoints g = (nx0 * ny0)%nat.
Proof.
  intros Hr HC.
  destruct (reached_instance _ _ _ _ _ _ _ _ _ Hr)
    as [(Hdt & Hny & Hnx & Ho & Hs) _].
  assert (npoints g = (nx0 * ny0)%nat) as Hn by (unfold npoints; congruence).
  unfold assembleC, lhsT, rhsT, crank_nicolson_matrix, crank_nicolson_rhs.
  by rewrite Ho, Hs, Hn, Hdt.
Qed.



(** C2.  In every pass of the loop that completes, the vector returned by
    the stream-function solve satisfies
    [Laplacian_psi Psi' = - sqrtRa ElimMask (dx_T T' - rhsDx_T)], where [T']
    is the temperature after the Dirichlet overwrite of the same pass: the
    pass solves for the temperature, overwrites its boundary rows, solves
    for the stream function and overwrites its edges, in this order.  The
    solvers are assumed to return solutions only. *)
Theorem stream_function_solve_is_poisson lib dt0 nt0 ny0 nx0 p o k g g' :
  solver_sound lib →
  reached lib dt0 nt0 ny0 nx0 p o k g →
  step lib g = Ok g' →
  ∃ E Tsol Psol,
    make_psiElim ny0 nx0 = Ok E
    ∧ solveT lib g = Ok Tsol
    ∧ enforceT g Tsol = Ok (Tnplus1 g')
    ∧ solvePsi lib g (Tnplus1 g') = Ok Psol
    ∧ mvmul (dlOpPsi o) Psol
      = vscale (- sqrtRa p)
          (mvmul E (vsub (mvmul (dxOpTemp o) (Tnplus1 g')) (rhsDxOpTemp o)))
    ∧ enforcePsi g Psol = Ok (Psinplus1 g').
Proof.
  intros Hlib Hr.
  destruct (reached_inv _ _ _ _ _ _ _ _ _ Hr) as (_ & Hp & Ho & HE & Hf & _).
  intros (Tsol & Psol & HT & _ & HeT & HP & _ & HeP & _)%step_Ok.
  exists (psiElim g), Tsol, Psol. repeat split; try done.
  subst p o. by apply (solvePsi_sound lib).
Qed.

Lemma stream_function_solve_is_poisson_witness :
  ∃ g g', reached unit_lib main_dt 2 3 3 main_params unit_ops 0 g
  ∧ step unit_lib g = Ok g' ∧
  ∃ E Tsol Psol,
    make_psiElim 3 3 = Ok E
    ∧ solveT unit_lib g = Ok Tsol
    ∧ enforceT g Tsol = Ok (Tnplus1 g')
    ∧ solvePsi unit_lib g (Tnplus1 g') = Ok Psol
    ∧ mvmul (dlOpPsi unit_ops) Psol
      = vscale (- sqrtRa main_params)
          (mvmul E (vsub (mvmul (dxOpTemp unit_ops) (Tnplus1 g'))
                         (rhsDxOpTemp unit_ops)))
    ∧ enforcePsi g Psol = Ok (Psinplus1 g').
Proof.
  destruct (unit_setup unit_lib main_params
            ≫= λ g, step unit_lib g ≫= λ g', Ok (g, g'))
    as [[g g']|e] eqn:E; [|exfalso; vm_compute in E; discriminate].
  apply bind_Ok in E as (g0 & E0 & E).
  apply bind_Ok in E as (g1 & E & [= <- <-]).
  assert (reached unit_lib main_dt 2 3 3 main_params unit_ops 0 g0) as Hr
    by (by exists g0).
  exists g0, g1. split; [done|]. split; [done|].
  exact (stream_function_solve_is_poisson unit_lib main_dt 2 3 3 main_params
           unit_ops 0 g0 g1 unit_lib_sound Hr E).
Defined.

(** * The boundary invariant *)

Lemma reached_S_inv lib dt0 nt0 ny0 nx0 p o k g :
  reached lib dt0 nt0 ny0 nx0 p o (S k) g →
  ∃ g1, reached lib dt0 nt0 ny0 nx0 p o k g1 ∧ step lib g1 = Ok g.
Proof.
  intros (g0 & Hs & Hk). rewrite iterate_S_last in Hk.
  apply bind_Ok in Hk as (g1 & Hk & Hg). exists g1. split; [|done].
  by exists g0.
Qed.

Lemma mod_top_row n j : (0 < n)%nat → ((j * n + (n - 1)) `mod` n = n - 1)%nat.
Proof.
  intros Hn. rewrite Nat.add_comm, Nat.Div0.mod_add.
  apply Nat.mod_small. lia.
Qed.

(** C3.  After every pass of the loop the temperature equals [Tbottom] at
    the indices [0, ny, 2 ny, ...] and [Ttop] at the indices
    [ny - 1, 2 ny - 1, ...], the stream function is [0] on all four edges,
    and applying the two Dirichlet overwrites again returns the same two
    vectors. *)
Theorem boundary_values_hold_after_every_step
    lib dt0 nt0 ny0 nx0 p o k g :
  reached lib dt0 nt0 ny0 nx0 p o (S k) g →
  (∀ j, (j < nx0)%nat →
     Tnplus1 g !! (j * ny0)%nat = Some (Tbottom p)
     ∧ Tnplus1 g !! (j * ny0 + (ny0 - 1))%nat = Some (Ttop p))
  ∧ (∀ i, (i < nx0 * ny0)%nat → boundary ny0 nx0 i →
       Psinplus1 g !! i = Some 0)
  ∧ enforceT g (Tnplus1 g) = Ok (Tnplus1 g)
  ∧ enforcePsi g (Psinplus1 g) = Ok (Psinplus1 g).
Proof.
  intros (g1 & Hr & Hs)%reached_S_inv.
  destruct (reached_inv _ _ _ _ _ _ _ _ _ Hr)
    as (_ & Hp & _ & _ & _ & Hny & Hnx & H2).
  destruct (step_frame _ _ _ Hs) as (Hc' & Hp' & _).
  apply step_Ok in Hs as (Tsol & Psol & _ & HlT & HeT & _ & HlP & HeP & _).
  assert (0 < ny (config g1))%nat as Hpos by lia.
  unfold npoints in HlT, HlP. rewrite Hny, Hnx in HlT, HlP.
  destruct (enforceT_spec g1 Tsol Hpos) as (T' & ET & LT & KT).
  rewrite HeT in ET. injection ET as <-.
  destruct (enforcePsi_spec g1 Psol Hpos) as (P' & EP & LP & KP).
  { unfold npoints. by rewrite Hny, Hnx. }
  rewrite HeP in EP. injection EP as <-.
  rewrite Hny, Hp in KT. rewrite Hny, Hnx in KP.
  repeat split.
  - rewrite KT by nia. rewrite Nat.Div0.mod_mul.
    rewrite decide_False by lia. by rewrite decide_True.
  - rewrite KT by nia. by rewrite mod_top_row, decide_True by lia.
  - intros i Hi Hb. rewrite KP by lia. by rewrite decide_True.
  - rewrite (enforceT_params g1 g) by congruence.
    by apply (enforceT_idempotent g1 Tsol).
  - rewrite (enforcePsi_params g1 g) by done.
    apply (enforcePsi_idempotent g1 Psol); [done| |done].
    unfold npoints. by rewrite Hny, Hnx.
Qed.

Lemma boundary_values_hold_after_every_step_witness :
  ∃ g, reached unit_lib main_dt 2 3 3 main_params unit_ops 2 g
  ∧ (∀ j, (j < 3)%nat →
       Tnplus1 g !! (j * 3)%nat = Some (Tbottom main_params)
       ∧ Tnplus1 g !! (j * 3 + (3 - 1))%nat = Some (Ttop main_params))
  ∧ (∀ i, (i < 3 * 3)%nat → boundary 3 3 i → Psinplus1 g !! i = Some 0)
  ∧ enforceT g (Tnplus1 g) = Ok (Tnplus1 g)
  ∧ enforcePsi g (Psinplus1 g) = Ok (Psinplus1 g).
Proof.
  destruct (unit_setup unit_lib main_params ≫= iterate unit_lib 2)
    as [g|e] eqn:E; [|exfalso; vm_compute in E; discriminate].
  apply bind_Ok in E as (g0 & E0 & E).
  assert (reached unit_lib main_dt 2 3 3 main_params unit_ops 2 g) as Hr
    by (by exists g0).
  exists g. split; [done|].
  exact (boundary_values_hold_after_every_step unit_lib main_dt 2 3 3
           main_params unit_ops 1 g Hr).
Defined.

(** * Grid spacings *)

(** C6.  When the configuration is built, [dy = 1 / (ny - 1)] and
    [dx = 2 / (ny - 1)]: both come from the number of rows, so [dx] is
    [2 dy] and is the same for every number of columns; every state the
    program reaches carries this same configuration. *)
Theorem spacings_come_from_ny dt0 nt0 ny0 nx0 cfg :
  make_config dt0 nt0 ny0 nx0 = Ok cfg →
  dy cfg = Qc_of_int 1 / Qc_of_int (Z.of_nat ny0 - 1)
  ∧ dx cfg = Qc_of_int 2 / Qc_of_int (Z.of_nat ny0 - 1)
  ∧ dx cfg = dy cfg * Qc_of_int 2
  ∧ (∀ nx1, ∃ cfg1, make_config dt0 nt0 ny0 nx1 = Ok cfg1
                    ∧ dy cfg1 = dy cfg ∧ dx cfg1 = dx cfg)
  ∧ (∀ lib p o k g, reached lib dt0 nt0 ny0 nx0 p o k g → config g = cfg).
Proof.
  intros H. pose proof H as [Hne ->]%make_config_Ok. simpl.
  repeat split.
  - unfold Qcdiv. change (Qc_of_int 2) with (1 + 1).
    change (Qc_of_int 1) with 1. ring.
  - intros nx1. eexists. split; [by apply make_config_Ok|done].
  - intros lib p o k g Hr.
    destruct (reached_inv _ _ _ _ _ _ _ _ _ Hr) as (Hc & _).
    rewrite H in Hc. by injection Hc.
Qed.

Lemma spacings_come_from_ny_witness :
  ∃ cfg, make_config main_dt main_nt main_ny main_nx = Ok cfg
  ∧ dy cfg = Qc_of_int 1 / Qc_of_int (Z.of_nat main_ny - 1)
  ∧ dx cfg = Qc_of_int 2 / Qc_of_int (Z.of_nat main_ny - 1)
  ∧ dx cfg = dy cfg * Qc_of_int 2
  ∧ (∀ nx1, ∃ cfg1, make_config main_dt main_nt main_ny nx1 = Ok cfg1
                    ∧ dy cfg1 = dy cfg ∧ dx cfg1 = dx cfg)
  ∧ (∀ lib p o k g,
       reached lib main_dt main_nt main_ny main_nx p o k g → config g = cfg).
Proof.
  destruct (make_config main_dt main_nt main_ny main_nx) as [cfg|e] eqn:E;
    [|exfalso; vm_compute in E; discriminate].
  exists cfg. split; [done|].
  exact (spacings_come_from_ny main_dt main_nt main_ny main_nx cfg E).
Defined.

(** * Systems without a solution *)

Lemma zero_matrix_unsolvable n b i bi :
  (i < n)%nat → b !! i = Some bi → bi ≠ 0 →
  ∀ x, mvmul (zero_matrix n) x ≠ b.
Proof.
  intros Hi Hb Hne x Hx. apply (f_equal (.!! i)) in Hx.
  unfold mvmul, zero_matrix in Hx.
  rewrite list_lookup_fmap, lookup_replicate_2 in Hx by done.
  simpl in Hx. rewrite dot_zero_row, Hb in Hx. by injection Hx as <-.
Qed.

(** * The two solver paths *)

Lemma length_rhsPsi g T : length (rhsPsi g T) = length (psiElim g).
Proof. unfold rhsPsi. by rewrite length_mvmul, length_mscale. Qed.

Lemma make_psiElim_length ny0 nx0 E :
  make_psiElim ny0 nx0 = Ok E → length E = (nx0 * ny0)%nat.
Proof.
  intros H. destruct ny0 as [|n].
  - by rewrite make_psiElim_no_rows in H.
  - destruct (psiElim_diagonal_spec (S n) nx0) as (d & Hd & Ld & _); [lia|].
    unfold make_psiElim in H. rewrite Hd, bind_Ok_l in H.
    injection H as <-. by rewrite length_diags.
Qed.

Lemma solveT_flags lib dt0 ny0 nx0 p o g g' :
  exact_for lib dt0 ny0 nx0 p o → instance_of dt0 ny0 nx0 p o g →
  same_up_to_flags g g' →
  solveT lib g' = solveT lib g.
Proof.
  intros Hex Hg (Hc & Ho & _ & HT & HP & Hs & _).
  assert (instance_of dt0 ny0 nx0 p o g') as Hg'.
  { destruct Hg as (? & ? & ? & ? & ?). unfold instance_of.
    rewrite <- Hc, <- Ho, <- Hs. done. }
  destruct (solveT_exact _ _ _ _ _ _ _ Hex Hg) as (x & -> & Lx & Sx).
  destruct (solveT_exact _ _ _ _ _ _ _ Hex Hg') as (x' & -> & Lx' & Sx').
  f_equal. unfold assembleC, lhsT, rhsT, npoints in *.
  rewrite <- Hc, <- Ho, <- HT, <- HP, <- Hs in Sx'.
  destruct Hex as (_ & _ & Hex). destruct Hg as (Hdt & Hny & Hnx & Ho' & Hs').
  specialize (Hex (Psinplus1 g)).
  rewrite Hdt, Hny, Hnx, Ho', Hs' in Sx, Sx'.
  apply (solution_unique _ _ _ Hex); congruence.
Qed.

Lemma solvePsi_exact lib dt0 ny0 nx0 p o g T :
  exact_for lib dt0 ny0 nx0 p o → instance_of dt0 ny0 nx0 p o g →
  prepared lib g →
  ∃ x, solvePsi lib g T = Ok x ∧ length x = (nx0 * ny0)%nat
    ∧ mvmul (dlOpPsi o) x = rhsPsi g T.
Proof.
  intros (_ & Hex & _) (Hdt & Hny & Hnx & Ho & Hs) [Hf HE].
  assert (length (rhsPsi g T) = (nx0 * ny0)%nat) as Hb.
  { rewrite length_rhsPsi. apply make_psiElim_length in HE. congruence. }
  apply make_factor1_Ok in Hf. unfold solvePsi. rewrite Ho in *.
  destruct Hex as [(f & Hfo & Hfb) Hsp _].
  destruct (useSuperLUFactorizationEq1 (params g)).
  - destruct Hf as (f' & Hf' & ->). rewrite Hfo in Hf'. injection Hf' as <-.
    destruct (Hfb _ Hb) as (x & -> & Hx). by exists x.
  - destruct (Hsp _ Hb) as (x & -> & Hx). by exists x.
Qed.

Lemma rhsPsi_flags g g' T :
  same_up_to_flags g g' → rhsPsi g' T = rhsPsi g T.
Proof.
  intros (Hc & Ho & HE & _ & _ & Hs & _). unfold rhsPsi.
  by rewrite <- Ho, <- HE, <- Hs.
Qed.

Lemma solvePsi_flags lib dt0 ny0 nx0 p o g g' T :
  exact_for lib dt0 ny0 nx0 p o → instance_of dt0 ny0 nx0 p o g →
  same_up_to_flags g g' → prepared lib g → prepared lib g' →
  solvePsi lib g' T = solvePsi lib g T.
Proof.
  intros Hex Hg Hsame Hp Hp'.
  assert (instance_of dt0 ny0 nx0 p o g') as Hg'.
  { destruct Hg as (? & ? & ? & ? & ?).
    destruct Hsame as (Hc & Ho & _ & _ & _ & Hs & _). unfold instance_of.
    rewrite <- Hc, <- Ho, <- Hs. done. }
  destruct (solvePsi_exact _ _ _ _ _ _ _ T Hex Hg Hp) as (x & -> & Lx & Sx).
  destruct (solvePsi_exact _ _ _ _ _ _ _ T Hex Hg' Hp') as (x' & -> & Lx' & Sx').
  f_equal. rewrite (rhsPsi_flags g g') in Sx' by done.
  destruct Hex as (_ & Hex & _).
  apply (solution_unique _ _ _ Hex); congruence.
Qed.

Lemma set_fields_same g : set_fields g (Tnplus1 g) (Psinplus1 g) = g.
Proof. by destruct g. Qed.

(** One pass from two states that differ in the flags only: the same
    outcome, up to the flags. *)
Lemma step_flags lib dt0 ny0 nx0 p o g g' :
  exact_for lib dt0 ny0 nx0 p o → instance_of dt0 ny0 nx0 p o g →
  same_up_to_flags g g' → prepared lib g → prepared lib g' →
  step lib g'
  = fmap_result (λ h, set_fields g' (Tnplus1 h) (Psinplus1 h)) (step lib g).
Proof.
  intros Hex Hg Hsame Hp Hp'. unfold step.
  rewrite (solveT_flags _ _ _ _ _ _ g g' Hex Hg Hsame).
  pose proof Hsame as (Hc & _ & _ & _ & _ & _ & Hb & Ht).
  assert (npoints g' = npoints g) as -> by (unfold npoints; by rewrite Hc).
  destruct (solveT lib g) as [Tsol|e]; [|done]. rewrite !bind_Ok_l.
  destruct (set_shape (npoints g) Tsol) as [Tcol|e]; [|done]. rewrite !bind_Ok_l.
  rewrite (enforceT_params g g') by done.
  destruct (enforceT g Tcol) as [T'|e]; [|done]. rewrite !bind_Ok_l.
  rewrite (solvePsi_flags _ _ _ _ _ _ g g' T' Hex Hg Hsame Hp Hp').
  destruct (solvePsi lib g T') as [Psol|e]; [|done]. rewrite !bind_Ok_l.
  destruct (set_shape (npoints g) Psol) as [Pcol|e]; [|done]. rewrite !bind_Ok_l.
  rewrite (enforcePsi_params g g') by done.
  by destruct (enforcePsi g Pcol) as [P'|e].
Qed.

Lemma iterate_flags lib dt0 ny0 nx0 p o k g g' :
  exact_for lib dt0 ny0 nx0 p o → instance_of dt0 ny0 nx0 p o g →
  same_up_to_flags g g' → prepared lib g → prepared lib g' →
  iterate lib k g'
  = fmap_result (λ h, set_fields g' (Tnplus1 h) (Psinplus1 h))
      (iterate lib k g).
Proof.
  intros Hex. revert g g'.
  induction k as [|k IH]; intros g g' Hg Hsame Hp Hp'.
  - simpl. destruct Hsame as (_ & _ & _ & -> & -> & _).
    by rewrite set_fields_same.
  - simpl. rewrite (step_flags _ _ _ _ _ _ g g' Hex Hg Hsame Hp Hp').
    destruct (step lib g) as [h|e] eqn:Hs; [|done]. simpl.
    destruct (step_frame _ _ _ Hs) as (Hc & Hpa & Ho & HE & Hf).
    rewrite (IH h (set_fields g' (Tnplus1 h) (Psinplus1 h))); [done|..].
    + destruct Hg as (? & ? & ? & ? & ?). unfold instance_of.
      by rewrite Hc, Ho, Hpa.
    + destruct Hsame as (? & ? & ? & _ & _ & ? & ? & ?).
      unfold same_up_to_flags. simpl. rewrite Hc, Ho, HE, Hpa. done.
    + destruct Hp. unfold prepared. by rewrite Hc, Ho, HE, Hpa, Hf.
    + done.
Qed.

(** Under an exact library the numerical part of a pass raises no
    exception. *)
Lemma step_succeeds lib dt0 ny0 nx0 p o g :
  exact_for lib dt0 ny0 nx0 p o → instance_of dt0 ny0 nx0 p o g →
  prepared lib g →
  ∃ g', step lib g = Ok g'.
Proof.
  intros Hex Hg Hp.
  assert (npoints g = (nx0 * ny0)%nat) as Hn.
  { destruct Hg as (_ & Hny & Hnx & _). unfold npoints. congruence. }
  assert (0 < ny (config g))%nat as Hpos.
  { destruct Hp as [_ HE]. destruct (ny (config g)); [|lia].
    by rewrite make_psiElim_no_rows in HE. }
  destruct (solveT_exact _ _ _ _ _ _ _ Hex Hg) as (x & Hx & Lx & _).
  destruct (enforceT_spec g x Hpos) as (T' & HT' & _).
  destruct (solvePsi_exact _ _ _ _ _ _ _ T' Hex Hg Hp) as (y & Hy & Ly & _).
  destruct (enforcePsi_spec g y Hpos) as (P' & HP' & _); [congruence|].
  exists (set_fields g T' P'). apply step_Ok. exists x, y. simpl.
  repeat split; congruence.
Qed.

(** The set-up under two flag settings. *)
Lemma setup_flags lib dt0 nt0 ny0 nx0 p o e1 e2 e1' e2' :
  exact_for lib dt0 ny0 nx0 p o →
  match setup lib dt0 nt0 ny0 nx0 (with_flags e1 e2 p) o,
        setup lib dt0 nt0 ny0 nx0 (with_flags e1' e2' p) o with
  | Ok g, Ok g' =>
      instance_of dt0 ny0 nx0 p o g ∧ same_up_to_flags g g'
      ∧ prepared lib g ∧ prepared lib g' ∧ nt (config g) = nt (config g')
  | Raise e, Raise e' => e = e'
  | _, _ => False
  end.
Proof.
  intros (_ & [(f & Hf & _) _ _] & _). unfold setup.
  destruct (make_config dt0 nt0 ny0 nx0) as [cfg|e] eqn:Hc; [|done].
  rewrite !bind_Ok_l.
  change (startT (with_flags e1 e2 p) ny0 nx0) with (startT p ny0 nx0).
  change (startT (with_flags e1' e2' p) ny0 nx0) with (startT p ny0 nx0).
  destruct (startT p ny0 nx0) as [T0|e]; [|done]. rewrite !bind_Ok_l.
  destruct (make_psiElim ny0 nx0) as [E|e] eqn:HE; [|done].
  rewrite !bind_Ok_l.
  apply make_config_Ok in Hc as [_ ->].
  assert (∀ b, make_factor1 lib (with_flags b e2 p) o
               = Ok (if b then Some f else None)) as H1.
  { intros []; unfold make_factor1; simpl; [by rewrite Hf|done]. }
  assert (∀ b, make_factor1 lib (with_flags b e2' p) o
               = Ok (if b then Some f else None)) as H2.
  { intros []; unfold make_factor1; simpl; [by rewrite Hf|done]. }
  rewrite H1, H2, !bind_Ok_l.
  unfold instance_of, same_up_to_flags, prepared. simpl.
  by rewrite H1, H2, HE.
Qed.

Lemma unit_solver_exact_eye lib n :
  factorized lib = unit_factorized → spsolve lib = unit_spsolve →
  solver_exact lib n (eye n).
Proof.
  intros Hf Hs.
  assert (unit_factorized (eye n)
          = Ok (λ b, if decide (length b = length (eye n))
                     then Ok b else Raise ValueError)) as Hu.
  { unfold unit_factorized. rewrite decide_True; [done|].
    by rewrite length_eye. }
  split.
  - rewrite Hf. eexists. split; [exact Hu|].
    intros b Hb. exists b. rewrite length_eye, decide_True by done.
    by rewrite mvmul_eye.
  - intros b Hb. exists b. rewrite Hs. unfold unit_spsolve.
    rewrite Hu, bind_Ok_l, length_eye, decide_True by done.
    by rewrite mvmul_eye.
  - intros x y Hx Hy. by rewrite !mvmul_eye.
Qed.

Lemma unit_lib_exact : exact_for unit_lib main_dt 3 3 main_params unit_ops.
Proof.
  split; [done|]. split.
  - by apply (unit_solver_exact_eye unit_lib 9).
  - intros psi.
    assert (madd (eye (3 * 3))
              (mscale (main_dt / 2)
                 (constructC unit_lib unit_ops psi (sqrtRa main_params)).1)
            = eye 9) as ->
      by (apply (bool_decide_unpack _); by vm_compute).
    by apply (unit_solver_exact_eye unit_lib 9).
Qed.

(** * Layout converter *)

Lemma index_split n m k :
  (k < n * m)%nat →
  ∃ i j, (k = j * n + i ∧ i < n ∧ j < m)%nat.
Proof.
  intros Hk. exists (k `mod` n)%nat, (k `div` n)%nat.
  assert (0 < n)%nat by (destruct n; lia).
  split; [|split].
  - pose proof (Nat.div_mod_eq k n). lia.
  - apply Nat.mod_upper_bound. lia.
  - by apply Nat.Div0.div_lt_upper_bound.
Qed.

(** In a concatenation of blocks of one length, entry [i] of block [j] is
    at position [j * m + i]. *)
Lemma lookup_concat_blocks {A} (l : list (list A)) m j i :
  Forall (λ b, length b = m) l → (i < m)%nat →
  concat l !! (j * m + i)%nat = l !! j ≫= (.!! i).
Proof.
  intros Hl Hi. revert j. induction Hl as [|b l Hb Hl IH]; intros j.
  - by rewrite !lookup_nil.
  - destruct j as [|j]; simpl.
    + apply lookup_app_l. lia.
    + rewrite lookup_app_r by lia.
      replace (m + j * m + i - length b)%nat with (j * m + i)%nat by lia.
      apply IH.
Qed.

Lemma length_concat_blocks {A} (l : list (list A)) m :
  Forall (λ b, length b = m) l → length (concat l) = (length l * m)%nat.
Proof.
  induction 1 as [|b l Hb Hl IH]; [done|].
  simpl. rewrite length_app, IH. lia.
Qed.

Lemma ncols_grid ny0 nx0 g :
  grid_shape ny0 nx0 g → (0 < ny0)%nat → ncols g = nx0.
Proof.
  intros [Hl Hr] Hn. destruct g as [|r g]; [simpl in Hl; lia|].
  by apply Forall_cons in Hr as [Hr _].
Qed.

Lemma fieldToVec_blocks g :
  Forall (λ b : vec, length b = length g)
    ((λ j, (λ r : vec, default 0 (r !! j)) <$> g) <$> seq 0 (ncols g)).
Proof.
  apply Forall_fmap, Forall_forall. intros j _. simpl.
  by rewrite length_fmap.
Qed.

Lemma length_fieldToVec ny0 nx0 g :
  grid_shape ny0 nx0 g → length (fieldToVec g) = (ny0 * nx0)%nat.
Proof.
  intros Hg. unfold fieldToVec.
  rewrite (length_concat_blocks _ _ (fieldToVec_blocks g)).
  rewrite length_fmap, length_seq.
  destruct (decide (0 < ny0)%nat) as [Hn|Hn].
  - rewrite (ncols_grid ny0 nx0 g Hg Hn). destruct Hg as [-> _]. lia.
  - destruct Hg as [Hl _]. destruct g; simpl in *; lia.
Qed.

(** Entry [(i, j)] of a grid field is entry [j * ny + i] of its vector. *)
Lemma lookup_fieldToVec ny0 nx0 g i j :
  grid_shape ny0 nx0 g → (i < ny0)%nat → (j < nx0)%nat →
  fieldToVec g !! (j * ny0 + i)%nat = g !! i ≫= (.!! j).
Proof.
  intros Hg Hi Hj. pose proof Hg as [Hl Hr]. unfold fieldToVec.
  rewrite <- Hl at 1.
  rewrite (lookup_concat_blocks _ _ _ _ (fieldToVec_blocks g)) by lia.
  rewrite list_lookup_fmap, (ncols_grid ny0 nx0 g Hg) by lia.
  rewrite lookup_seq_lt by done. simpl. rewrite list_lookup_fmap.
  destruct (lookup_lt_is_Some_2 g i) as [r Hgi]; [lia|].
  rewrite Hgi. simpl.
  pose proof (Forall_lookup_1 _ _ _ _ Hr Hgi) as Hlr. simpl in Hlr.
  destruct (lookup_lt_is_Some_2 r j) as [v Hv]; [lia|].
  by rewrite Hv.
Qed.

Lemma vecToField_Ok ny0 nx0 v :
  length v = (ny0 * nx0)%nat →
  ∃ g, vecToField ny0 nx0 v = Ok g
    ∧ grid_shape ny0 nx0 g
    ∧ ∀ i j, (i < ny0)%nat → (j < nx0)%nat →
        g !! i ≫= (.!! j) = v !! (j * ny0 + i)%nat.
Proof.
  intros Hv. unfold vecToField. rewrite decide_True by done.
  eexists. split; [done|]. split; [split|].
  - by rewrite length_fmap, length_seq.
  - apply Forall_fmap, Forall_forall. intros i _. simpl.
    by rewrite length_fmap, length_seq.
  - intros i j Hi Hj. rewrite list_lookup_fmap, lookup_seq_lt by done.
    simpl. rewrite list_lookup_fmap, lookup_seq_lt by done. simpl.
    destruct (lookup_lt_is_Some_2 v (j * ny0 + i)) as [x Hx]; [nia|].
    by rewrite Hx.
Qed.

(** Two grid fields of one shape with the same entries are equal. *)
Lemma grid_eq ny0 nx0 (g h : list vec) :
  grid_shape ny0 nx0 g → grid_shape ny0 nx0 h →
  (∀ i j, (i < ny0)%nat → (j < nx0)%nat →
     g !! i ≫= (.!! j) = h !! i ≫= (.!! j)) →
  g = h.
Proof.
  intros [Hlg Hrg] [Hlh Hrh] Heq.
  apply (list_eq_same_length _ _ ny0); [done..|].
  intros i r s Hi Hr Hs.
  pose proof (Forall_lookup_1 _ _ _ _ Hrg Hr) as Hlr.
  pose proof (Forall_lookup_1 _ _ _ _ Hrh Hs) as Hls. simpl in *.
  apply (list_eq_same_length _ _ nx0); [done..|].
  intros j x y Hj Hx Hy. specialize (Heq i j Hi Hj).
  rewrite Hr, Hs in Heq. simpl in Heq. congruence.
Qed.

(** C9.  For every grid size and every grid field of that size, converting
    to vector form and back returns the field; for every vector of length
    [ny * nx], converting to grid form succeeds and converting back returns
    the vector. *)
Theorem layout_round_trip ny0 nx0 :
  (∀ g, grid_shape ny0 nx0 g → vecToField ny0 nx0 (fieldToVec g) = Ok g)
  ∧ (∀ v, length v = (ny0 * nx0)%nat →
       ∃ g, vecToField ny0 nx0 v = Ok g ∧ grid_shape ny0 nx0 g
            ∧ fieldToVec g = v).
Proof.
  split.
  - intros g Hg.
    destruct (vecToField_Ok ny0 nx0 (fieldToVec g)) as (h & -> & Hh & Hlk);
      [by apply (length_fieldToVec ny0 nx0)|].
    f_equal. apply (grid_eq ny0 nx0); [done..|].
    intros i j Hi Hj. by rewrite Hlk, (lookup_fieldToVec ny0 nx0).
  - intros v Hv.
    destruct (vecToField_Ok ny0 nx0 v Hv) as (g & -> & Hg & Hlk).
    exists g. split; [done|]. split; [done|].
    apply (list_eq_same_length _ _ (ny0 * nx0));
      [done|by apply length_fieldToVec|].
    intros k x y Hk Hx Hy.
    destruct (index_split ny0 nx0 k Hk) as (i & j & -> & Hi & Hj).
    rewrite (lookup_fieldToVec ny0 nx0), Hlk in Hx by done. congruence.
Qed.

Lemma layout_round_trip_witness :
  vecToField 2 3
    (fieldToVec [[Qc_of_int 1; Qc_of_int 2; Qc_of_int 3];
                 [Qc_of_int 4; Qc_of_int 5; Qc_of_int 6]])
  = Ok [[Qc_of_int 1; Qc_of_int 2; Qc_of_int 3];
        [Qc_of_int 4; Qc_of_int 5; Qc_of_int 6]]
  ∧ ∃ g, vecToField 2 3 [Qc_of_int 1; Qc_of_int 4; Qc_of_int 2;
                         Qc_of_int 5; Qc_of_int 3; Qc_of_int 6] = Ok g
         ∧ grid_shape 2 3 g
         ∧ fieldToVec g = [Qc_of_int 1; Qc_of_int 4; Qc_of_int 2;
                           Qc_of_int 5; Qc_of_int 3; Qc_of_int 6].
Proof.
  split.
  - apply (proj1 (layout_round_trip 2 3)).
    split; [reflexivity|]. repeat constructor.
  - apply (proj2 (layout_round_trip 2 3)). reflexivity.
Defined.

(** * Initial conditions *)

Lemma lookup_linspace a b num i :
  (i < num)%nat →
  linspace a b num !! i
  = Some (a + Qc_of_int (Z.of_nat i)
              * ((b - a) / Qc_of_int (Z.of_nat num - 1))).
Proof.
  intros Hi. unfold linspace.
  by rewrite list_lookup_fmap, lookup_seq_lt.
Qed.

Lemma repeat_columns_shape nx0 col :
  grid_shape (length col) nx0 (repeat_columns nx0 col).
Proof.
  unfold repeat_columns. split; [by rewrite length_fmap|].
  apply Forall_fmap, Forall_forall. intros x _. simpl.
  by rewrite length_replicate.
Qed.

Lemma lookup_repeat_columns nx0 col i j x :
  col !! i = Some x → (j < nx0)%nat →
  repeat_columns nx0 col !! i ≫= (.!! j) = Some x.
Proof.
  intros Hx Hj. unfold repeat_columns. rewrite list_lookup_fmap, Hx. simpl.
  by apply lookup_replicate_2.
Qed.

Lemma linear_profile_shape p ny0 nx0 :
  grid_shape ny0 nx0 (linear_profile p ny0 nx0).
Proof.
  unfold linear_profile.
  pose proof (repeat_columns_shape nx0 (linspace (Tbottom p) (Ttop p) ny0)) as H.
  unfold linspace in H at 1. by rewrite length_fmap, length_seq in H.
Qed.

(** The slice [2:3] selects row two when there is one. *)
Lemma slice_indices_row_two len :
  (3 ≤ len)%nat → slice_indices len (Some 2%Z) (Some 3%Z) 1 = Ok [2%nat].
Proof.
  intros Hl. unfold slice_indices, slice_lo, slice_hi. simpl.
  change 2%Z with (Z.of_nat 2). change 3%Z with (Z.of_nat 3).
  rewrite !norm_bound_nat.
  replace (2 `min` len)%nat with 2%nat by lia.
  replace (3 `min` len)%nat with 3%nat by lia.
  destruct len as [|[|len]]; [lia..|]. done.
Qed.

Lemma half_split (n : nat) : ∃ r, (n = 2 * (n `div` 2) + r ∧ r < 2)%nat.
Proof.
  exists (n `mod` 2)%nat. split; [apply Nat.div_mod_eq|].
  apply Nat.mod_upper_bound. lia.
Qed.

(** The column slice [int(nx/2 - 1) : int(nx/2 + 1)] selects the two
    middle columns. *)
Lemma in_middle_columns nx0 j :
  in_range (slice_lo nx0 (Some (int_half_plus (Z.of_nat nx0) (-1))))
           (slice_hi nx0 (Some (int_half_plus (Z.of_nat nx0) 1))) 1 j
  ↔ (j < nx0)%nat ∧ (j = nx0 `div` 2 - 1 ∨ j = nx0 `div` 2)%nat.
Proof.
  unfold in_range, slice_lo, slice_hi, norm_bound, int_half_plus.
  cbn [from_option]. rewrite Nat.mod_1_r.
  destruct (half_split nx0) as (r & H1 & H2). revert H1.
  generalize (nx0 `div` 2)%nat. intros h H1.
  repeat case_decide; Z.to_euclidean_division_equations; lia.
Qed.

Lemma lookup_linear_profile p ny0 nx0 i j :
  (i < ny0)%nat → (j < nx0)%nat →
  linear_profile p ny0 nx0 !! i ≫= (.!! j)
  = linspace (Tbottom p) (Ttop p) ny0 !! i.
Proof.
  intros Hi Hj. rewrite (lookup_linspace _ _ _ _ Hi).
  apply lookup_repeat_columns; [by apply lookup_linspace|done].
Qed.

Lemma startT_field_spec p ny0 nx0 :
  (3 ≤ ny0)%nat →
  ∃ F, startT_field p ny0 nx0 = Ok F
    ∧ grid_shape ny0 nx0 F
    ∧ ∀ i j, (i < ny0)%nat → (j < nx0)%nat →
        F !! i ≫= (.!! j)
        = if decide (i = 2 ∧ (j = nx0 `div` 2 - 1 ∨ j = nx0 `div` 2))%nat
          then Some one_half
          else linspace (Tbottom p) (Ttop p) ny0 !! i.
Proof.
  intros Hny. pose proof (linear_profile_shape p ny0 nx0) as [Hl Hr].
  unfold startT_field, assign_slice2.
  rewrite Hl, slice_indices_row_two, bind_Ok_l by done. cbn [foldl].
  rewrite bind_Ok_l.
  destruct (lookup_lt_is_Some_2 (linear_profile p ny0 nx0) 2) as [row Hrow];
    [lia|].
  pose proof (Forall_lookup_1 _ _ _ _ Hr Hrow) as Hlrow. simpl in Hlrow.
  rewrite Hrow.
  destruct (assign_slice_spec (Some (int_half_plus (Z.of_nat nx0) (-1)))
              (Some (int_half_plus (Z.of_nat nx0) 1)) 1 one_half row)
    as (row' & -> & Hlrow' & Hk); [lia|].
  rewrite bind_Ok_l. eexists. split; [done|]. split; [split|].
  - by rewrite length_insert.
  - apply Forall_insert; [done|]. simpl. congruence.
  - intros i j Hi Hj. destruct (decide (i = 2%nat)) as [->|Hne].
    + rewrite list_lookup_insert_eq by lia.
      rewrite <- (lookup_linear_profile p ny0 nx0 2%nat j) by lia.
      rewrite Hrow. cbn [mbind option_bind].
      rewrite Hk, Hlrow.
      destruct (lookup_lt_is_Some_2 row j) as [x Hx]; [lia|]. rewrite Hx.
      change ((λ _ : Qc, one_half) <$> Some x) with (Some one_half).
      pose proof (in_middle_columns nx0 j) as Hm.
      repeat case_decide; try done; exfalso; read_slices; lia.
    + rewrite list_lookup_insert_ne by done.
      rewrite decide_False by lia. by apply lookup_linear_profile.
Qed.

Lemma startPsi_zero ny0 nx0 : startPsi ny0 nx0 = replicate (nx0 * ny0) 0.
Proof.
  unfold startPsi.
  pose proof (repeat_columns_shape nx0 (replicate ny0 0)) as Hg.
  rewrite length_replicate in Hg.
  apply (list_eq_same_length _ _ (ny0 * nx0)).
  - rewrite length_replicate. lia.
  - by apply length_fieldToVec.
  - intros k x y Hk Hx Hy.
    destruct (index_split ny0 nx0 k Hk) as (i & j & -> & Hi & Hj).
    rewrite (lookup_fieldToVec ny0 nx0) in Hx by done.
    rewrite (lookup_repeat_columns nx0 _ i j 0) in Hx
      by (by try apply lookup_replicate_2).
    apply lookup_replicate_1 in Hy as [-> _]. congruence.
Qed.

(** C10.  On a grid with at least three rows and one column, the initial
    temperature is the vector form of the linear profile between [Tbottom]
    and [Ttop] in which the entries of row [2] at the columns [nx/2 - 1]
    and [nx/2] were replaced by [1/2] before the conversion; when the
    linear profile is not [1/2] on row [2] this vector differs from the
    vector form of the linear profile itself.  The initial stream function
    is the zero vector. *)
Theorem initial_temperature_is_perturbed_profile p ny0 nx0 :
  (3 ≤ ny0)%nat → (1 ≤ nx0)%nat →
  linspace (Tbottom p) (Ttop p) ny0 !! 2%nat ≠ Some one_half →
  ∃ F T0,
    startT_field p ny0 nx0 = Ok F
    ∧ startT p ny0 nx0 = Ok T0
    ∧ T0 = fieldToVec F
    ∧ (∀ i j, (i < ny0)%nat → (j < nx0)%nat →
         F !! i ≫= (.!! j)
         = if decide (i = 2 ∧ (j = nx0 `div` 2 - 1 ∨ j = nx0 `div` 2))%nat
           then Some one_half
           else linspace (Tbottom p) (Ttop p) ny0 !! i)
    ∧ (∀ i j, (i < ny0)%nat → (j < nx0)%nat →
         T0 !! (j * ny0 + i)%nat
         = if decide (i = 2 ∧ (j = nx0 `div` 2 - 1 ∨ j = nx0 `div` 2))%nat
           then Some one_half
           else linspace (Tbottom p) (Ttop p) ny0 !! i)
    ∧ T0 ≠ fieldToVec (linear_profile p ny0 nx0)
    ∧ startPsi ny0 nx0 = replicate (nx0 * ny0) 0.
Proof.
  intros Hny Hnx Hlin.
  destruct (startT_field_spec p ny0 nx0 Hny) as (F & HF & Hg & Hk).
  exists F, (fieldToVec F). unfold startT. rewrite HF, bind_Ok_l.
  repeat split; try done.
  - intros i j Hi Hj. rewrite (lookup_fieldToVec ny0 nx0) by done.
    by apply Hk.
  - intros Heq.
    assert (nx0 `div` 2 < nx0)%nat as Hj by (apply Nat.div_lt; lia).
    apply (f_equal (.!! (nx0 `div` 2 * ny0 + 2)%nat)) in Heq.
    rewrite !(lookup_fieldToVec ny0 nx0) in Heq
      by (done || lia || apply linear_profile_shape).
    rewrite Hk, lookup_linear_profile in Heq by (done || lia).
    rewrite decide_True in Heq by auto. done.
  - apply startPsi_zero.
Qed.

Lemma initial_temperature_is_perturbed_profile_witness :
  ∃ F T0,
    startT_field main_params main_ny main_nx = Ok F
    ∧ startT main_params main_ny main_nx = Ok T0
    ∧ T0 = fieldToVec F
    ∧ (∀ i j, (i < main_ny)%nat → (j < main_nx)%nat →
         F !! i ≫= (.!! j)
         = if decide (i = 2 ∧ (j = 19 ∨ j = 20))%nat
           then Some one_half
           else linspace (Tbottom main_params) (Ttop main_params) main_ny !! i)
    ∧ (∀ i j, (i < main_ny)%nat → (j < main_nx)%nat →
         T0 !! (j * main_ny + i)%nat
         = if decide (i = 2 ∧ (j = 19 ∨ j = 20))%nat
           then Some one_half
           else linspace (Tbottom main_params) (Ttop main_params) main_ny !! i)
    ∧ T0 ≠ fieldToVec (linear_profile main_params main_ny main_nx)
    ∧ startPsi main_ny main_nx = replicate (main_nx * main_ny) 0.
Proof.
  apply (initial_temperature_is_perturbed_profile main_params main_ny main_nx).
  - unfold main_ny. lia.
  - unfold main_nx. lia.
  - intros H. vm_compute in H. discriminate.
Defined.

(** * Further properties of the set-up and of the loop body *)

(** ** The mask and the overwrite of the stream function *)

Lemma make_psiElim_Ok ny0 nx0 E :
  make_psiElim ny0 nx0 = Ok E →
  (0 < ny0)%nat
  ∧ ∃ d, E = diags d ∧ length d = (nx0 * ny0)%nat
      ∧ ∀ k, (k < nx0 * ny0)%nat →
          d !! k = Some (if decide (boundary ny0 nx0 k) then 0 else 1).
Proof.
  intros H. destruct ny0 as [|n].
  - by rewrite make_psiElim_no_rows in H.
  - split; [lia|].
    destruct (psiElim_diagonal_spec (S n) nx0) as (d & Hd & Ld & Kd); [lia|].
    unfold make_psiElim in H. rewrite Hd, bind_Ok_l in H.
    injection H as <-. by exists d.
Qed.

(** X1.  The four slice assignments that zero the edges of the stream
    function (lines 211-214) compute the product of the elimination mask
    (lines 66-71) with the vector. *)
Theorem enforcePsi_is_mask_product lib dt0 nt0 ny0 nx0 p o k g P :
  reached lib dt0 nt0 ny0 nx0 p o k g →
  length P = (nx0 * ny0)%nat →
  enforcePsi g P = Ok (mvmul (psiElim g) P).
Proof.
  intros Hr HP.
  destruct (reached_inv _ _ _ _ _ _ _ _ _ Hr)
    as (_ & _ & _ & HE & _ & Hny & Hnx & _).
  apply make_psiElim_Ok in HE as (Hpos & d & HEd & Ld & Kd).
  destruct (enforcePsi_spec g P) as (P' & -> & LP & KP).
  { by rewrite Hny. } { unfold npoints. by rewrite Hny, Hnx. }
  f_equal. rewrite Hny, Hnx in KP. rewrite HEd.
  apply (list_eq_same_length _ _ (nx0 * ny0)).
  - by rewrite length_mvmul, length_diags.
  - congruence.
  - intros i x y Hi Hx Hy.
    rewrite KP in Hx by lia. rewrite lookup_mvmul_diags, Kd in Hy by done.
    destruct (lookup_lt_is_Some_2 P i) as [pi Hpi]; [lia|].
    rewrite Hpi in Hx, Hy. simpl in Hy. injection Hy as <-.
    case_decide; injection Hx as <-; ring.
Qed.

Lemma enforcePsi_is_mask_product_witness :
  ∃ g, reached unit_lib main_dt 2 3 3 main_params unit_ops 1 g
  ∧ enforcePsi g (replicate 9 (Qc_of_int 5))
    = Ok (mvmul (psiElim g) (replicate 9 (Qc_of_int 5))).
Proof.
  destruct (unit_setup unit_lib main_params ≫= iterate unit_lib 1)
    as [g|e] eqn:E; [|exfalso; vm_compute in E; discriminate].
  apply bind_Ok in E as (g0 & E0 & E).
  assert (reached unit_lib main_dt 2 3 3 main_params unit_ops 1 g) as Hr
    by (by exists g0).
  exists g. split; [done|].
  exact (enforcePsi_is_mask_product unit_lib main_dt 2 3 3 main_params
           unit_ops 1 g (replicate 9 (Qc_of_int 5)) Hr eq_refl).
Defined.

(** X2.  In every state the program reaches, the right-hand side of the
    stream-function system is [0] at every edge index, whatever the
    temperature vector is. *)
Theorem poisson_rhs_vanishes_on_boundary lib dt0 nt0 ny0 nx0 p o k g T i :
  reached lib dt0 nt0 ny0 nx0 p o k g →
  (i < nx0 * ny0)%nat → boundary ny0 nx0 i →
  rhsPsi g T !! i = Some 0.
Proof.
  intros Hr Hi Hb.
  destruct (reached_inv _ _ _ _ _ _ _ _ _ Hr)
    as (_ & _ & _ & HE & _ & _ & _ & _).
  apply make_psiElim_Ok in HE as (_ & d & HEd & Ld & Kd).
  unfold rhsPsi. rewrite mvmul_mscale, HEd. unfold vscale.
  rewrite list_lookup_fmap, lookup_mvmul_diags, Kd by done.
  rewrite decide_True by done. simpl. f_equal. ring.
Qed.

Lemma poisson_rhs_vanishes_on_boundary_witness :
  ∃ g, reached unit_lib main_dt 2 3 3 main_params unit_ops 1 g
  ∧ rhsPsi g (Tnplus1 g) !! 3%nat = Some 0.
Proof.
  destruct (unit_setup unit_lib main_params ≫= iterate unit_lib 1)
    as [g|e] eqn:E; [|exfalso; vm_compute in E; discriminate].
  apply bind_Ok in E as (g0 & E0 & E).
  assert (reached unit_lib main_dt 2 3 3 main_params unit_ops 1 g) as Hr
    by (by exists g0).
  exists g. split; [done|].
  apply (poisson_rhs_vanishes_on_boundary unit_lib main_dt 2 3 3 main_params
           unit_ops 1 g (Tnplus1 g) 3 Hr); [lia|].
  unfold boundary. right. right. left. reflexivity.
Defined.

(** X3.  A pass of the loop hands on what the solvers returned at every
    index the Dirichlet overwrites do not touch: the temperature off the
    bottom and top rows, the stream function off the four edges. *)
Theorem step_keeps_solver_values_off_boundary
    lib dt0 nt0 ny0 nx0 p o k g g' :
  reached lib dt0 nt0 ny0 nx0 p o k g →
  step lib g = Ok g' →
  ∃ Tsol Psol,
    solveT lib g = Ok Tsol
    ∧ solvePsi lib g (Tnplus1 g') = Ok Psol
    ∧ (∀ i, (i `mod` ny0 ≠ 0)%nat → (i `mod` ny0 ≠ ny0 - 1)%nat →
         Tnplus1 g' !! i = Tsol !! i)
    ∧ (∀ i, ¬ boundary ny0 nx0 i → Psinplus1 g' !! i = Psol !! i).
Proof.
  intros Hr Hs.
  destruct (reached_inv _ _ _ _ _ _ _ _ _ Hr)
    as (_ & _ & _ & _ & _ & Hny & Hnx & H2).
  apply step_Ok in Hs as (Tsol & Psol & HT & HlT & HeT & HP & HlP & HeP & _).
  assert (0 < ny (config g))%nat as Hpos by lia.
  destruct (enforceT_spec g Tsol Hpos) as (T' & ET & LT & KT).
  rewrite HeT in ET. injection ET as <-.
  destruct (enforcePsi_spec g Psol Hpos HlP) as (P' & EP & LP & KP).
  rewrite HeP in EP. injection EP as <-.
  rewrite Hny in KT. rewrite Hny, Hnx in KP.
  exists Tsol, Psol. repeat split; try done.
  - intros i H0 H1. destruct (decide (i < length Tsol)%nat) as [Hi|Hi].
    + rewrite KT by done. by rewrite !decide_False.
    + rewrite !(proj2 (lookup_ge_None _ _)) by lia. done.
  - intros i Hb. destruct (decide (i < length Psol)%nat) as [Hi|Hi].
    + rewrite KP by done. by rewrite decide_False.
    + rewrite !(proj2 (lookup_ge_None _ _)) by lia. done.
Qed.

Lemma step_keeps_solver_values_off_boundary_witness :
  ∃ g g', reached unit_lib main_dt 2 3 3 main_params unit_ops 0 g
  ∧ step unit_lib g = Ok g' ∧
  ∃ Tsol Psol,
    solveT unit_lib g = Ok Tsol
    ∧ solvePsi unit_lib g (Tnplus1 g') = Ok Psol
    ∧ (∀ i, (i `mod` 3 ≠ 0)%nat → (i `mod` 3 ≠ 3 - 1)%nat →
         Tnplus1 g' !! i = Tsol !! i)
    ∧ (∀ i, ¬ boundary 3 3 i → Psinplus1 g' !! i = Psol !! i).
Proof.
  destruct (unit_setup unit_lib main_params
            ≫= λ g, step unit_lib g ≫= λ g', Ok (g, g'))
    as [[g g']|e] eqn:E; [|exfalso; vm_compute in E; discriminate].
  apply bind_Ok in E as (g0 & E0 & E).
  apply bind_Ok in E as (g1 & E & [= <- <-]).
  assert (reached unit_lib main_dt 2 3 3 main_params unit_ops 0 g0) as Hr
    by (by exists g0).
  exists g0, g1. split; [done|]. split; [done|].
  exact (step_keeps_solver_values_off_boundary unit_lib main_dt 2 3 3
           main_params unit_ops 0 g0 g1 Hr E).
Defined.

(** ** The initial fields on small and on regular grids *)

Lemma slice_indices_row_two_missing len :
  (len < 3)%nat → slice_indices len (Some 2%Z) (Some 3%Z) 1 = Ok [].
Proof. intros Hl. destruct len as [|[|[|len]]]; [done..|lia]. Qed.

Lemma startT_field_unperturbed p ny0 nx0 :
  (ny0 < 3)%nat → startT_field p ny0 nx0 = Ok (linear_profile p ny0 nx0).
Proof.
  intros Hny. pose proof (linear_profile_shape p ny0 nx0) as [Hl _].
  unfold startT_field, assign_slice2.
  by rewrite Hl, slice_indices_row_two_missing.
Qed.

(** X4.  On a grid with fewer than three rows the slice [2:3] selects no
    row: the initial temperature is the vector form of the linear profile,
    without the perturbation, so its entry for row [i] of any column is the
    [i]-th value of [linspace(Tbottom, Ttop, ny)]. *)
Theorem startT_unperturbed_below_three_rows p ny0 nx0 :
  (ny0 < 3)%nat →
  ∃ T0, startT p ny0 nx0 = Ok T0
    ∧ T0 = fieldToVec (linear_profile p ny0 nx0)
    ∧ ∀ i j, (i < ny0)%nat → (j < nx0)%nat →
        T0 !! (j * ny0 + i)%nat = linspace (Tbottom p) (Ttop p) ny0 !! i.
Proof.
  intros Hny. unfold startT.
  rewrite startT_field_unperturbed, bind_Ok_l by done.
  eexists. split; [done|]. split; [done|].
  intros i j Hi Hj.
  rewrite (lookup_fieldToVec ny0 nx0) by (done || apply linear_profile_shape).
  by apply lookup_linear_profile.
Qed.

Lemma startT_unperturbed_below_three_rows_witness :
  ∃ T0, startT main_params 2 main_nx = Ok T0
    ∧ T0 = fieldToVec (linear_profile main_params 2 main_nx)
    ∧ ∀ i j, (i < 2)%nat → (j < main_nx)%nat →
        T0 !! (j * 2 + i)%nat
        = linspace (Tbottom main_params) (Ttop main_params) 2 !! i.
Proof. apply (startT_unperturbed_below_three_rows main_params 2 main_nx). lia. Defined.

Lemma startT_length p ny0 nx0 :
  ∃ T0, startT p ny0 nx0 = Ok T0 ∧ length T0 = (nx0 * ny0)%nat.
Proof.
  destruct (decide (ny0 < 3)%nat) as [Hny|Hny].
  - unfold startT. rewrite startT_field_unperturbed, bind_Ok_l by done.
    eexists. split; [done|].
    rewrite (length_fieldToVec ny0 nx0) by apply linear_profile_shape. lia.
  - destruct (startT_field_spec p ny0 nx0) as (F & HF & Hg & _); [lia|].
    unfold startT. rewrite HF, bind_Ok_l. eexists. split; [done|].
    rewrite (length_fieldToVec ny0 nx0) by done. lia.
Qed.

Lemma step_lengths lib g g' :
  (0 < ny (config g))%nat → step lib g = Ok g' →
  length (Tnplus1 g') = npoints g ∧ length (Psinplus1 g') = npoints g.
Proof.
  intros Hpos (Tsol & Psol & _ & HlT & HeT & _ & HlP & HeP & _)%step_Ok.
  destruct (enforceT_spec g Tsol Hpos) as (T' & ET & LT & _).
  destruct (enforcePsi_spec g Psol Hpos HlP) as (P' & EP & LP & _).
  rewrite HeT in ET. rewrite HeP in EP.
  injection ET as <-. injection EP as <-. split; congruence.
Qed.

(** X5.  In every state the program reaches, the initial one included, the
    temperature and the stream function have [nx * ny] entries; this needs
    no assumption on what the solvers return, because a solver result of
    another length makes the shape assignment of lines 197 and 209 raise. *)
Theorem fields_keep_grid_length lib dt0 nt0 ny0 nx0 p o k g :
  reached lib dt0 nt0 ny0 nx0 p o k g →
  length (Tnplus1 g) = (nx0 * ny0)%nat
  ∧ length (Psinplus1 g) = (nx0 * ny0)%nat.
Proof.
  destruct k as [|k].
  - intros (g0 & Hs & [= <-]).
    apply setup_Ok in Hs as (_ & _ & _ & _ & _ & HT & HP).
    destruct (startT_length p ny0 nx0) as (T0 & HT0 & Hl).
    rewrite HT in HT0. injection HT0 as <-. split; [done|].
    by rewrite HP, startPsi_zero, length_replicate.
  - intros (g1 & Hr & Hs)%reached_S_inv.
    destruct (reached_inv _ _ _ _ _ _ _ _ _ Hr)
      as (_ & _ & _ & _ & _ & Hny & Hnx & H2).
    destruct (step_lengths lib g1 g) as [HT HP]; [lia|done|].
    unfold npoints in HT, HP. by rewrite Hny, Hnx in HT, HP.
Qed.

Lemma fields_keep_grid_length_witness :
  ∃ g, reached unit_lib main_dt 2 3 3 main_params unit_ops 2 g
  ∧ length (Tnplus1 g) = (3 * 3)%nat ∧ length (Psinplus1 g) = (3 * 3)%nat.
Proof.
  destruct (unit_setup unit_lib main_params ≫= iterate unit_lib 2)
    as [g|e] eqn:E; [|exfalso; vm_compute in E; discriminate].
  apply bind_Ok in E as (g0 & E0 & E).
  assert (reached unit_lib main_dt 2 3 3 main_params unit_ops 2 g) as Hr
    by (by exists g0).
  exists g. split; [done|].
  exact (fields_keep_grid_length unit_lib main_dt 2 3 3 main_params
           unit_ops 2 g Hr).
Defined.

Lemma Qc_of_int_nonzero z : z ≠ 0%Z → Qc_of_int z ≠ 0.
Proof.
  intros Hz H. unfold Qc_of_int in H. apply Q2Qc_eq_iff in H.
  unfold Qeq in H. simpl in H. lia.
Qed.

Lemma linspace_first a b num :
  (0 < num)%nat → linspace a b num !! 0%nat = Some a.
Proof.
  intros Hn. rewrite lookup_linspace by done. f_equal.
  change (Qc_of_int (Z.of_nat 0)) with 0. ring.
Qed.

Lemma linspace_last a b num :
  (2 ≤ num)%nat → linspace a b num !! (num - 1)%nat = Some b.
Proof.
  intros Hn. rewrite lookup_linspace by lia. f_equal.
  rewrite Nat2Z.inj_sub by lia. change (Z.of_nat 1) with 1%Z.
  field. apply Qc_of_int_nonzero. lia.
Qed.

Lemma after_step_boundary_values lib dt0 nt0 ny0 nx0 p o k g g' :
  reached lib dt0 nt0 ny0 nx0 p o k g → step lib g = Ok g' →
  (∀ j, (j < nx0)%nat →
     Tnplus1 g' !! (j * ny0)%nat = Some (Tbottom p)
     ∧ Tnplus1 g' !! (j * ny0 + (ny0 - 1))%nat = Some (Ttop p))
  ∧ (∀ i, (i < nx0 * ny0)%nat → boundary ny0 nx0 i →
       Psinplus1 g' !! i = Some 0).
Proof.
  intros Hr Hs.
  destruct (reached_inv _ _ _ _ _ _ _ _ _ Hr)
    as (_ & Hp & _ & _ & _ & Hny & Hnx & H2).
  apply step_Ok in Hs as (Tsol & Psol & _ & HlT & HeT & _ & HlP & HeP & _).
  assert (0 < ny (config g))%nat as Hpos by lia.
  destruct (enforceT_spec g Tsol Hpos) as (T' & ET & LT & KT).
  rewrite HeT in ET. injection ET as <-.
  destruct (enforcePsi_spec g Psol Hpos HlP) as (P' & EP & LP & KP).
  rewrite HeP in EP. injection EP as <-.
  unfold npoints in HlT, HlP. rewrite Hny, Hnx in HlT, HlP.
  rewrite Hny, Hp in KT. rewrite Hny, Hnx in KP.
  repeat split.
  - rewrite KT by nia. rewrite Nat.Div0.mod_mul.
    rewrite decide_False by lia. by rewrite decide_True.
  - rewrite KT by nia. by rewrite mod_top_row, decide_True by lia.
  - intros i Hi Hb. rewrite KP by lia. by rewrite decide_True.
Qed.

(** X6.  On a grid with at least four rows the boundary values hold from
    the start: already the initial state, and every state after it, has
    [Tbottom] on the bottom row, [Ttop] on the top row and a stream
    function that is [0] on the four edges. *)
Theorem boundary_values_hold_from_the_start lib dt0 nt0 ny0 nx0 p o k g :
  (4 ≤ ny0)%nat →
  reached lib dt0 nt0 ny0 nx0 p o k g →
  (∀ j, (j < nx0)%nat →
     Tnplus1 g !! (j * ny0)%nat = Some (Tbottom p)
     ∧ Tnplus1 g !! (j * ny0 + (ny0 - 1))%nat = Some (Ttop p))
  ∧ (∀ i, (i < nx0 * ny0)%nat → boundary ny0 nx0 i →
       Psinplus1 g !! i = Some 0).
Proof.
  intros Hny. destruct k as [|k].
  - intros (g0 & Hs & [= <-]).
    apply setup_Ok in Hs as (_ & _ & _ & _ & _ & HT & HP).
    destruct (startT_field_spec p ny0 nx0) as (F & HF & Hg & Hk); [lia|].
    unfold startT in HT. rewrite HF, bind_Ok_l in HT. injection HT as <-.
    repeat split.
    + replace (j * ny0)%nat with (j * ny0 + 0)%nat by lia.
      rewrite (lookup_fieldToVec ny0 nx0), Hk by (done || lia).
      rewrite decide_False by lia. apply linspace_first. lia.
    + rewrite (lookup_fieldToVec ny0 nx0), Hk by (done || lia).
      rewrite decide_False by lia. apply linspace_last. lia.
    + intros i Hi _. rewrite HP, startPsi_zero.
      by apply lookup_replicate_2.
  - intros (g1 & Hr & Hs)%reached_S_inv.
    by apply (after_step_boundary_values lib dt0 nt0 ny0 nx0 p o k g1 g).
Qed.

Lemma boundary_values_hold_from_the_start_witness :
  ∃ g, setup unit_lib main_dt 2 4 3 main_params unit_ops = Ok g
  ∧ (∀ j, (j < 3)%nat →
       Tnplus1 g !! (j * 4)%nat = Some (Tbottom main_params)
       ∧ Tnplus1 g !! (j * 4 + (4 - 1))%nat = Some (Ttop main_params))
  ∧ (∀ i, (i < 3 * 4)%nat → boundary 4 3 i → Psinplus1 g !! i = Some 0).
Proof.
  destruct (setup unit_lib main_dt 2 4 3 main_params unit_ops)
    as [g|e] eqn:E; [|exfalso; vm_compute in E; discriminate].
  assert (reached unit_lib main_dt 2 4 3 main_params unit_ops 0 g) as Hr
    by (by exists g).
  exists g. split; [done|].
  apply (boundary_values_hold_from_the_start unit_lib main_dt 2 4 3
           main_params unit_ops 0 g); [lia|done].
Defined.

(** X7.  On a grid with exactly three rows the perturbed row is the top
    row: the initial temperature is [1/2] at the top-row entry of the
    middle column. *)
Theorem startT_perturbs_top_row_of_three p nx0 :
  (1 ≤ nx0)%nat →
  ∃ T0, startT p 3 nx0 = Ok T0
    ∧ T0 !! (nx0 `div` 2 * 3 + (3 - 1))%nat = Some one_half.
Proof.
  intros Hnx.
  destruct (startT_field_spec p 3 nx0) as (F & HF & Hg & Hk); [lia|].
  unfold startT. rewrite HF, bind_Ok_l. eexists. split; [done|].
  assert (nx0 `div` 2 < nx0)%nat as Hj by (apply Nat.div_lt; lia).
  rewrite (lookup_fieldToVec 3 nx0), Hk by (done || lia).
  by rewrite decide_True by auto.
Qed.

Lemma startT_perturbs_top_row_of_three_witness :
  ∃ T0, startT main_params 3 main_nx = Ok T0
    ∧ T0 !! (main_nx `div` 2 * 3 + (3 - 1))%nat = Some one_half.
Proof.
  apply (startT_perturbs_top_row_of_three main_params main_nx).
  unfold main_nx. lia.
Defined.

(** ** Outcomes of the set-up and of the whole run *)

Lemma setup_succeeds lib dt0 nt0 ny0 nx0 p o r :
  (2 ≤ ny0)%nat → make_factor1 lib p o = Ok r →
  ∃ g, setup lib dt0 nt0 ny0 nx0 p o = Ok g ∧ factor1 g = r
    ∧ instance_of dt0 ny0 nx0 p o g ∧ prepared lib g
    ∧ nt (config g) = nt0.
Proof.
  intros Hny Hf. unfold setup.
  assert (ny0 ≠ 1%nat) as Hne by lia.
  rewrite (proj2 (make_config_Ok dt0 nt0 ny0 nx0 _) (conj Hne eq_refl)).
  rewrite bind_Ok_l.
  destruct (startT_length p ny0 nx0) as (T0 & -> & _). rewrite bind_Ok_l.
  destruct (psiElim_diagonal_spec ny0 nx0) as (d & Hd & _); [lia|].
  assert (make_psiElim ny0 nx0 = Ok (diags d)) as HE
    by (unfold make_psiElim; by rewrite Hd).
  rewrite HE, bind_Ok_l, Hf, bind_Ok_l.
  eexists. split; [done|]. by repeat split.
Qed.

(** X8.  Degenerate row counts never reach the loop: with one row the
    script raises [ZeroDivisionError] at the computation of [dy]; with no
    row the strided assignments of the mask raise [ValueError]; a set-up
    that completes has at least two rows. *)
Theorem setup_needs_two_rows lib ps rnd dt0 nt0 ny0 nx0 p o :
  main lib ps rnd dt0 nt0 1 nx0 p o = Failed (Numeric ZeroDivisionError)
  ∧ make_psiElim 0 nx0 = Raise ValueError
  ∧ (∀ g, setup lib dt0 nt0 ny0 nx0 p o = Ok g → (2 ≤ ny0)%nat).
Proof.
  split; [done|]. split; [apply make_psiElim_no_rows|].
  intros g Hs.
  assert (reached lib dt0 nt0 ny0 nx0 p o 0 g) as Hr by (by exists g).
  by destruct (reached_inv _ _ _ _ _ _ _ _ _ Hr) as (_ & _ & _ & _ & _ & _ & _ & ?).
Qed.

Lemma setup_needs_two_rows_witness :
  main unit_lib main_plot_settings coarse_round main_dt 2 1 3 main_params
    unit_ops
  = Failed (Numeric ZeroDivisionError)
  ∧ make_psiElim 0 3 = Raise ValueError
  ∧ (∀ g, setup unit_lib main_dt 2 3 3 main_params unit_ops = Ok g →
          (2 ≤ 3)%nat).
Proof.
  exact (setup_needs_two_rows unit_lib main_plot_settings coarse_round
           main_dt 2 3 3 main_params unit_ops).
Defined.

(** X9.  With at least two rows the set-up can fail only in the
    factorization of the stream-function Laplacian, and only when its flag
    is set: without the flag the set-up completes for every library and
    leaves [factor1] unbound; with the flag, a factorization that raises
    ends the script with that exception before the first pass, and one
    that succeeds is what [factor1] holds. *)
Theorem setup_fails_only_in_factorization lib ps rnd dt0 nt0 ny0 nx0 p o :
  (2 ≤ ny0)%nat →
  (useSuperLUFactorizationEq1 p = false →
     ∃ g, setup lib dt0 nt0 ny0 nx0 p o = Ok g ∧ factor1 g = None)
  ∧ (useSuperLUFactorizationEq1 p = true →
     ∀ e, factorized lib (dlOpPsi o) = Raise e →
          main lib ps rnd dt0 nt0 ny0 nx0 p o = Failed (Numeric e))
  ∧ (useSuperLUFactorizationEq1 p = true →
     ∀ f, factorized lib (dlOpPsi o) = Ok f →
          ∃ g, setup lib dt0 nt0 ny0 nx0 p o = Ok g ∧ factor1 g = Some f).
Proof.
  intros Hny. repeat split.
  - intros Hflag.
    destruct (setup_succeeds lib dt0 nt0 ny0 nx0 p o None Hny)
      as (g & Hg & Hf & _); [|by exists g].
    unfold make_factor1. by rewrite Hflag.
  - intros Hflag e He. unfold main, setup.
    assert (ny0 ≠ 1%nat) as Hne by lia.
    rewrite (proj2 (make_config_Ok dt0 nt0 ny0 nx0 _) (conj Hne eq_refl)).
    rewrite bind_Ok_l.
    destruct (startT_length p ny0 nx0) as (T0 & -> & _). rewrite bind_Ok_l.
    destruct (psiElim_diagonal_spec ny0 nx0) as (d & Hd & _); [lia|].
    unfold make_psiElim. rewrite Hd, !bind_Ok_l.
    unfold make_factor1. by rewrite Hflag, He.
  - intros Hflag f Hf.
    destruct (setup_succeeds lib dt0 nt0 ny0 nx0 p o (Some f) Hny)
      as (g & Hg & Hf' & _); [|by exists g].
    unfold make_factor1. by rewrite Hflag, Hf.
Qed.

Lemma setup_fails_only_in_factorization_witness :
  (useSuperLUFactorizationEq1 main_params = false →
     ∃ g, setup unit_lib main_dt 2 3 3 main_params unit_ops = Ok g
          ∧ factor1 g = None)
  ∧ (useSuperLUFactorizationEq1 main_params = true →
     ∀ e, factorized unit_lib (dlOpPsi unit_ops) = Raise e →
          main unit_lib main_plot_settings coarse_round main_dt 2 3 3
            main_params unit_ops
          = Failed (Numeric e))
  ∧ (useSuperLUFactorizationEq1 main_params = true →
     ∀ f, factorized unit_lib (dlOpPsi unit_ops) = Ok f →
          ∃ g, setup unit_lib main_dt 2 3 3 main_params unit_ops = Ok g
               ∧ factor1 g = Some f).
Proof.
  apply (setup_fails_only_in_factorization unit_lib main_plot_settings
           coarse_round main_dt 2 3 3 main_params unit_ops). lia.
Defined.

Lemma reached_lengths lib dt0 nt0 ny0 nx0 p o k g :
  reached lib dt0 nt0 ny0 nx0 p o k g →
  length (Tnplus1 g) = npoints g ∧ length (Psinplus1 g) = npoints g.
Proof.
  intros Hr.
  destruct (reached_inv _ _ _ _ _ _ _ _ _ Hr)
    as (_ & _ & _ & _ & _ & Hny & Hnx & H2).
  unfold npoints. rewrite Hny, Hnx. clear Hny Hnx. destruct k as [|k].
  - destruct Hr as (g0 & Hs & [= <-]).
    apply setup_Ok in Hs as (_ & _ & _ & _ & _ & HT & HP).
    destruct (startT_length p ny0 nx0) as (T0 & HT0 & Hl).
    rewrite HT in HT0. injection HT0 as <-. split; [done|].
    by rewrite HP, startPsi_zero, length_replicate.
  - apply reached_S_inv in Hr as (g1 & Hr & Hs).
    destruct (reached_inv _ _ _ _ _ _ _ _ _ Hr)
      as (_ & _ & _ & _ & _ & Hny & Hnx & _).
    destruct (step_lengths lib g1 g) as [HT HP]; [lia|done|].
    unfold npoints in HT, HP. by rewrite Hny, Hnx in HT, HP.
Qed.

(** X12.  Written out with the products of the identity expanded: in every
    pass of the loop, a vector with one entry per grid point that the
    temperature solve returns satisfies
    [T' + (dt/2) C T' = dt rhsC + (T - (dt/2) C T)], whenever [constructC]
    returns a square matrix.  The solvers are assumed to return solutions
    only. *)
Theorem temperature_update_entrywise
    lib dt0 nt0 ny0 nx0 p o k g C rhsC Tsol :
  solver_sound lib →
  reached lib dt0 nt0 ny0 nx0 p o k g →
  constructC lib o (Psinplus1 g) (sqrtRa p) = (C, rhsC) →
  square (nx0 * ny0) C →
  solveT lib g = Ok Tsol → length Tsol = (nx0 * ny0)%nat →
  vadd Tsol (vscale (dt0 / 2) (mvmul C Tsol))
  = vadd (vscale dt0 rhsC)
         (vsub (Tnplus1 g) (vscale (dt0 / 2) (mvmul C (Tnplus1 g)))).
Proof.
  intros Hlib Hr HC Hsq HT Hl.
  destruct (solveT_system _ _ _ _ _ _ _ _ _ _ _ Hr HC) as (HA & _ & _ & Hn).
  destruct (reached_instance _ _ _ _ _ _ _ _ _ Hr) as [(Hdt & _) _].
  destruct (reached_lengths _ _ _ _ _ _ _ _ _ Hr) as [HlT _].
  rewrite <- Hdt. apply (solveT_update_equation lib g Tsol C rhsC);
    try done; congruence.
Qed.

Lemma temperature_update_entrywise_witness :
  ∃ g Tsol,
    reached damped_lib main_dt 2 3 3 main_params unit_ops 0 g
    ∧ solveT damped_lib g = Ok Tsol
    ∧ vadd Tsol (vscale (main_dt / 2)
                   (mvmul (mscale (Qc_of_int 100) (eye 9)) Tsol))
      = vadd (vscale main_dt (replicate 9 (Qc_of_int 100)))
             (vsub (Tnplus1 g)
                   (vscale (main_dt / 2)
                      (mvmul (mscale (Qc_of_int 100) (eye 9)) (Tnplus1 g)))).
Proof.
  assert (match unit_setup damped_lib main_params
                ≫= λ g, solveT damped_lib g with
          | Ok Tsol => bool_decide (length Tsol = (3 * 3)%nat)
          | Raise _ => false
          end = true) as H by (vm_compute; reflexivity).
  destruct (unit_setup damped_lib main_params) as [g|e] eqn:E0;
    [|discriminate H].
  rewrite bind_Ok_l in H.
  destruct (solveT damped_lib g) as [Tsol|e] eqn:E; [|discriminate H].
  apply bool_decide_eq_true in H.
  assert (reached damped_lib main_dt 2 3 3 main_params unit_ops 0 g) as Hr
    by (by exists g).
  exists g, Tsol. split; [exact Hr|]. split; [exact E|].
  apply (temperature_update_entrywise damped_lib main_dt 2 3 3 main_params
           unit_ops 0 g (mscale (Qc_of_int 100) (eye 9))
           (replicate 9 (Qc_of_int 100)) Tsol damped_lib_sound Hr);
    [reflexivity| |exact E|exact H].
  apply square_mscale, square_eye.
Defined.

(** * The display block *)

Lemma outcome_bind_Done {A B} (m : outcome A) (f : A → outcome B) (b : B) :
  (m ≫= f) = Done b ↔ ∃ a, m = Done a ∧ f a = Done b.
Proof.
  destruct m as [a|e]; simpl; split.
  - intros H. by exists a.
  - by intros (a' & [= <-] & H).
  - intros [=].
  - by intros (a' & [=] & _).
Qed.

Lemma outcome_bind_Done_l {A B} (a : A) (f : A → outcome B) :
  (Done a ≫= f) = f a.
Proof. done. Qed.

Lemma from_result_Done {A} (r : result A) (a : A) :
  from_result r = Done a ↔ r = Ok a.
Proof. destruct r; simpl; split; intros [=]; by subst. Qed.

Lemma display_Done ps it acc g acc' :
  display ps it acc g = Done acc' →
  generateEvery ps ≠ 0%nat
  ∧ t acc' = t acc
  ∧ ((it `mod` generateEvery ps = 0%nat ∧ generateAnimation ps = true
      ∧ ∃ ux uy ms c a,
          max_speed ux uy = Ok ms
          ∧ acc' = {| t := t acc;
                      maxSpeedArr := maxSpeedArr acc ++ [ms];
                      heatFluxConductionArr := heatFluxConductionArr acc ++ [c];
                      heatFluxAdvectionArr := heatFluxAdvectionArr acc ++ [a];
                      totalHeatFluxArr := totalHeatFluxArr acc ++ [a + c] |})
     ∨ ((it `mod` generateEvery ps ≠ 0%nat ∨ generateAnimation ps = false)
        ∧ acc' = acc)).
Proof.
  unfold display, py_mod. case_decide as He; [done|]. simpl.
  case_decide as Hm.
  - destruct (generateAnimation ps) eqn:Hg.
    + intros H.
      apply outcome_bind_Done in H as (ux & _ & H).
      apply outcome_bind_Done in H as (uy & _ & H).
      apply outcome_bind_Done in H as (ms & Hms%from_result_Done & H).
      apply outcome_bind_Done in H as (c & _ & H).
      apply outcome_bind_Done in H as (a & _ & H).
      injection H as <-. split; [done|]. split; [done|]. left.
      split; [done|]. split; [done|]. by exists ux, uy, ms, c, a.
    + intros [= <-]. split; [done|]. split; [done|]. right. auto.
  - intros [= <-]. split; [done|]. split; [done|]. right. auto.
Qed.

Lemma loop_pass_Done lib ps rnd it acc g acc' g' :
  loop_pass lib ps rnd it (acc, g) = Done (acc', g') →
  ∃ ts, append_time rnd (dt (config g)) it (t acc) = Done ts
    ∧ display ps it (set_time acc ts) g = Done acc'
    ∧ step lib g = Ok g'.
Proof.
  unfold loop_pass, display_part. simpl. intros H.
  apply outcome_bind_Done in H as (acc1 & Hd & H).
  apply outcome_bind_Done in Hd as (ts & Hts & Hd).
  apply outcome_bind_Done in H as (g1 & Hs%from_result_Done & [= <- <-]).
  by exists ts.
Qed.

Lemma loop_from_config lib ps rnd it k acc g acc' g' :
  loop_from lib ps rnd it k (acc, g) = Done (acc', g') → config g' = config g.
Proof.
  revert it acc g. induction k as [|k IH]; intros it acc g H; simpl in H.
  - by injection H as <- <-.
  - apply outcome_bind_Done in H as ([acc1 g1] & H1 & H2).
    apply loop_pass_Done in H1 as (ts & _ & _ & Hs).
    apply step_frame in Hs as (<- & _). by apply (IH (S it) acc1).
Qed.

(** The loop unrolled at its last pass. *)
Lemma loop_from_S_last lib ps rnd it k s :
  loop_from lib ps rnd it (S k) s
  = (loop_from lib ps rnd it k s ≫= loop_pass lib ps rnd (it + k)).
Proof.
  revert it s. induction k as [|k IH]; intros it s.
  - simpl. rewrite Nat.add_0_r. by destruct (loop_pass lib ps rnd it s).
  - change (loop_from lib ps rnd it (S (S k)) s)
      with (loop_pass lib ps rnd it s ≫= loop_from lib ps rnd (S it) (S k)).
    change (loop_from lib ps rnd it (S k) s)
      with (loop_pass lib ps rnd it s ≫= loop_from lib ps rnd (S it) k).
    destruct (loop_pass lib ps rnd it s) as [s1|e]; [|done].
    rewrite !outcome_bind_Done_l, IH.
    by replace (S it + k)%nat with (it + S k)%nat by lia.
Qed.

(** ** Frames and the sampled time axis *)

Lemma length_range_from fuel lo hi step :
  (0 < step)%nat → (hi ≤ lo + fuel)%nat →
  length (range_from fuel lo hi step) = ((hi - lo + step - 1) `div` step)%nat.
Proof.
  intros Hs. revert lo. induction fuel as [|fuel IH]; intros lo Hf; simpl.
  - replace (hi - lo + step - 1)%nat with (step - 1)%nat by lia.
    rewrite Nat.div_small; lia.
  - case_decide as Hlt; simpl.
    + rewrite IH by lia. destruct (decide (step ≤ hi - lo)%nat) as [Hd|Hd].
      * replace (hi - lo + step - 1)%nat
          with (hi - (lo + step) + step - 1 + 1 * step)%nat by lia.
        rewrite Nat.div_add by lia. lia.
      * replace (hi - (lo + step) + step - 1)%nat with (step - 1)%nat by lia.
        replace (hi - lo + step - 1)%nat
          with (hi - lo - 1 + 1 * step)%nat by lia.
        rewrite Nat.div_add by lia. rewrite !Nat.div_small; lia.
    + replace (hi - lo + step - 1)%nat with (step - 1)%nat by lia.
      rewrite Nat.div_small; lia.
Qed.

(** The number of frames among the first [k] passes grows by one exactly
    at the passes whose index is a multiple of the interval. *)
Lemma frames_succ e k :
  (0 < e)%nat →
  ((S k + e - 1) `div` e
   = (k + e - 1) `div` e + (if decide (k `mod` e = 0) then 1 else 0))%nat.
Proof.
  intros He. pose proof (Nat.div_mod_eq k e) as Hk.
  pose proof (Nat.mod_upper_bound k e ltac:(lia)) as Hr.
  revert Hk Hr. generalize (k `div` e)%nat (k `mod` e)%nat. intros q r Hk Hr.
  case_decide as H0.
  - subst r.
    rewrite <- (Nat.div_unique (S k + e - 1) e (q + 1) 0) by lia.
    rewrite <- (Nat.div_unique (k + e - 1) e q (e - 1)) by lia. lia.
  - rewrite <- (Nat.div_unique (S k + e - 1) e (q + 1) r) by lia.
    rewrite <- (Nat.div_unique (k + e - 1) e (q + 1) (r - 1)) by lia. lia.
Qed.

Lemma length_omap_lookup {A} (l : list A) idx :
  Forall (λ i, i < length l)%nat idx →
  length (omap (λ i, l !! i) idx) = length idx.
Proof.
  induction 1 as [|i idx Hi _ IH]; [done|].
  simpl. destruct (lookup_lt_is_Some_2 l i Hi) as [x ->]. simpl.
  f_equal. exact IH.
Qed.

Lemma length_get_whole_slice {A} (l : list A) step :
  (0 < step)%nat →
  ∃ l', get_slice None None step l = Ok l'
    ∧ length l' = ((length l + step - 1) `div` step)%nat.
Proof.
  intros Hs. unfold get_slice, slice_indices.
  rewrite decide_False by lia. rewrite bind_Ok_l.
  eexists. split; [done|]. unfold slice_lo, slice_hi. cbn [from_option].
  rewrite length_omap_lookup.
  - rewrite length_range_from by lia. by rewrite Nat.sub_0_r.
  - apply Forall_forall. intros i Hi.
    apply elem_of_range_from in Hi as [[_ ?] _]; [done|lia..].
Qed.

Lemma append_time_length rnd dt0 it ts ts' :
  append_time rnd dt0 it ts = Done ts' → length ts' = S (length ts).
Proof.
  unfold append_time. case_decide.
  - intros [= <-]. rewrite length_app. simpl. lia.
  - intros (x & _ & [= <-])%outcome_bind_Done.
    rewrite length_app. simpl. lia.
Qed.

(** Induction over the passes of the loop with its display block. *)
Lemma loop_from_invariant lib ps rnd (P : nat → Accumulators → Prop) k g
    acc' g' :
  P 0%nat no_accumulators →
  (∀ it acc g1 ts acc1,
     P it acc →
     append_time rnd (dt (config g1)) it (t acc) = Done ts →
     display ps it (set_time acc ts) g1 = Done acc1 →
     P (S it) acc1) →
  loop_from lib ps rnd 0 k (no_accumulators, g) = Done (acc', g') →
  P k acc'.
Proof.
  intros H0 Hstep. revert acc' g'.
  induction k as [|k IH]; intros acc' g' H.
  - by injection H as <- <-.
  - rewrite loop_from_S_last in H.
    apply outcome_bind_Done in H as ([acc1 g1] & H1 & H2).
    apply IH in H1. simpl in H2.
    apply loop_pass_Done in H2 as (ts & Hts & Hd & _).
    by apply (Hstep k acc1 g1 ts acc').
Qed.

(** X15.  With the animation on, after any positive number [k] of
    completed passes the four recorded lists have one entry per frame,
    [ceil (k / generateEvery)] of them, and the sampled time axis
    [t[::generateEvery]] they are plotted against has the same length. *)
Theorem recorded_lists_match_sampled_times lib ps rnd k g acc' g' :
  generateAnimation ps = true → (0 < k)%nat →
  loop_from lib ps rnd 0 k (no_accumulators, g) = Done (acc', g') →
  ∃ ts, sampled_times ps acc' = Ok ts
    ∧ length ts = ((k + generateEvery ps - 1) `div` generateEvery ps)%nat
    ∧ length (maxSpeedArr acc') = length ts
    ∧ length (heatFluxConductionArr acc') = length ts
    ∧ length (heatFluxAdvectionArr acc') = length ts
    ∧ length (totalHeatFluxArr acc') = length ts.
Proof.
  intros Hg Hk H.
  pose (n := λ j : nat,
    ((j + generateEvery ps - 1) `div` generateEvery ps)%nat).
  assert (length (t acc') = k
          ∧ (0 < k → 0 < generateEvery ps)%nat
          ∧ length (maxSpeedArr acc') = n k
          ∧ length (heatFluxConductionArr acc') = n k
          ∧ length (heatFluxAdvectionArr acc') = n k
          ∧ length (totalHeatFluxArr acc') = n k) as Hinv.
  { apply (loop_from_invariant lib ps rnd
             (λ j acc, length (t acc) = j
                       ∧ (0 < j → 0 < generateEvery ps)%nat
                       ∧ length (maxSpeedArr acc) = n j
                       ∧ length (heatFluxConductionArr acc) = n j
                       ∧ length (heatFluxAdvectionArr acc) = n j
                       ∧ length (totalHeatFluxArr acc) = n j) k g acc' g');
      [| |done].
    - unfold n. simpl. repeat split; try lia;
        destruct (generateEvery ps) as [|e]; try done;
        rewrite Nat.div_small; lia.
    - intros it acc g1 ts acc1 (Ht & _ & H1 & H2 & H3 & H4) Hts Hd.
      apply append_time_length in Hts.
      apply display_Done in Hd as (He & Ht1 & Hcase).
      assert (0 < generateEvery ps)%nat as Hpos by lia.
      unfold n in *. rewrite (frames_succ _ it Hpos).
      destruct Hcase as [(Hm & _ & ux & uy & ms & c & a & _ & ->)
                        |([Hm|Hm] & ->)]; simpl in *.
      + rewrite decide_True by done. rewrite !length_app. simpl.
        repeat split; lia.
      + rewrite decide_False by done. repeat split; lia.
      + congruence. }
  destruct Hinv as (Ht & He & H1 & H2 & H3 & H4).
  destruct (length_get_whole_slice (t acc') (generateEvery ps)) as (ts & Hs & Hl);
    [auto|].
  exists ts. unfold sampled_times. rewrite Hl, Ht.
  unfold n in *. by repeat split.
Qed.

Lemma recorded_lists_match_sampled_times_witness :
  ∃ acc g ts,
    loop_from (still_lib 20) fast_plot_settings coarse_round 0 3
      (no_accumulators, still_state 10 2) = Done (acc, g)
    ∧ sampled_times fast_plot_settings acc = Ok ts
    ∧ length ts = ((3 + 2 - 1) `div` 2)%nat
    ∧ length (maxSpeedArr acc) = length ts
    ∧ length (heatFluxConductionArr acc) = length ts
    ∧ length (heatFluxAdvectionArr acc) = length ts
    ∧ length (totalHeatFluxArr acc) = length ts.
Proof.
  destruct (loop_from (still_lib 20) fast_plot_settings coarse_round 0 3
              (no_accumulators, still_state 10 2))
    as [[acc g]|e] eqn:E; [|exfalso; vm_compute in E; discriminate].
  destruct (recorded_lists_match_sampled_times (still_lib 20)
              fast_plot_settings coarse_round 3 (still_state 10 2) acc g
              eq_refl ltac:(lia) E) as (ts & H).
  exists acc, g, ts. split; [reflexivity|exact H].
Defined.

(** ** The recorded speeds *)

Lemma Qc_square_nonneg (v : Qc) : 0 ≤ v * v.
Proof.
  destruct (Qclt_le_dec v 0) as [Hv|Hv].
  - replace (v * v) with (- v * - v) by ring.
    apply Qclt_le_weak, Qcopp_le_compat in Hv.
    change (- 0) with 0 in Hv. by apply Qcmult_nonneg_nonneg.
  - by apply Qcmult_nonneg_nonneg.
Qed.

Lemma Qcmax_ge_l a b : a ≤ Qcmax a b.
Proof.
  unfold Qcmax. case_decide; [by apply Qclt_le_weak|apply Qcle_refl].
Qed.

Lemma foldl_Qcmax_ge a l : a ≤ foldl Qcmax a l.
Proof.
  revert a. induction l as [|x l IH]; intros a; simpl; [apply Qcle_refl|].
  eapply Qcle_trans; [apply (Qcmax_ge_l a x)|apply IH].
Qed.

Lemma np_max_lower_bound c F m :
  Forall (Forall (λ v, c ≤ v)) F → np_max F = Ok m → c ≤ m.
Proof.
  intros HF. unfold np_max.
  assert (Forall (λ v, c ≤ v) (concat F)) as Hc by (by apply Forall_concat).
  destruct (concat F) as [|x l]; [done|]. intros [= <-].
  apply Forall_cons in Hc as [Hx _].
  eapply Qcle_trans; [exact Hx|apply foldl_Qcmax_ge].
Qed.

Lemma sum_of_squares_nonneg ux uy :
  Forall (Forall (λ v, 0 ≤ v))
    (field_add (field_map (λ v, v * v) ux) (field_map (λ v, v * v) uy)).
Proof.
  unfold field_add, field_map. revert uy.
  induction ux as [|r ux IH]; intros [|s uy]; simpl; try constructor.
  - clear IH. revert s. induction r as [|a r IHr]; intros [|b s]; simpl;
      constructor; [|apply IHr].
    apply Qcplus_nonneg_nonneg; apply Qc_square_nonneg.
  - apply IH.
Qed.

Lemma max_speed_lower_bound ux uy m :
  max_speed ux uy = Ok m → tiny_speed ≤ m.
Proof.
  unfold max_speed. intros (m0 & Hm & [= <-])%bind_Ok.
  apply (np_max_lower_bound 0) in Hm; [|apply sum_of_squares_nonneg].
  replace tiny_speed with (tiny_speed + 0) at 1 by ring.
  by apply Qcplus_le_mono_l.
Qed.

(** X16.  Every speed the display block records is at least [1e-99], hence
    positive, whatever the stream function is: the logarithmic speed plot
    is never handed a zero. *)
Theorem recorded_speeds_are_positive lib ps rnd k g acc' g' :
  loop_from lib ps rnd 0 k (no_accumulators, g) = Done (acc', g') →
  Forall (λ m, tiny_speed ≤ m ∧ 0 < m) (maxSpeedArr acc').
Proof.
  apply (loop_from_invariant lib ps rnd
           (λ _ acc, Forall (λ m, tiny_speed ≤ m ∧ 0 < m) (maxSpeedArr acc))).
  - constructor.
  - intros it acc g1 ts acc1 Hacc _ Hd.
    apply display_Done in Hd as (_ & _ & Hcase).
    destruct Hcase as [(_ & _ & ux & uy & ms & c & a & Hms & ->)|(_ & ->)];
      [|done].
    simpl. apply Forall_app. split; [done|]. constructor; [|constructor].
    apply max_speed_lower_bound in Hms. split; [done|].
    eapply Qclt_le_trans; [|exact Hms]. reflexivity.
Qed.

Lemma recorded_speeds_are_positive_witness :
  ∃ acc g,
    loop_from (still_lib 20) fast_plot_settings coarse_round 0 3
      (no_accumulators, still_state 10 2) = Done (acc, g)
    ∧ Forall (λ m, tiny_speed ≤ m ∧ 0 < m) (maxSpeedArr acc).
Proof.
  destruct (loop_from (still_lib 20) fast_plot_settings coarse_round 0 3
              (no_accumulators, still_state 10 2))
    as [[acc g]|e] eqn:E; [|exfalso; vm_compute in E; discriminate].
  exists acc, g. split; [done|].
  exact (recorded_speeds_are_positive (still_lib 20) fast_plot_settings
           coarse_round 3 (still_state 10 2) acc g E).
Defined.

(** ** The row the heat fluxes are read from *)

Lemma field_map_shape ny0 nx0 f F :
  grid_shape ny0 nx0 F → grid_shape ny0 nx0 (field_map f F).
Proof.
  intros [Hl Hr]. unfold field_map. split; [by rewrite length_fmap|].
  apply Forall_fmap. eapply Forall_impl; [exact Hr|].
  intros r Hlr. simpl. by rewrite length_fmap.
Qed.

Lemma field_add_shape ny0 nx0 F G :
  grid_shape ny0 nx0 F → grid_shape ny0 nx0 G →
  grid_shape ny0 nx0 (field_add F G).
Proof.
  intros [HlF HrF] [HlG HrG]. unfold field_add. split.
  - rewrite length_zip_with. lia.
  - apply Forall_forall. intros r Hr.
    apply list_elem_of_lookup in Hr as [i Hi].
    apply lookup_zip_with_Some in Hi as (a & b & -> & Ha & Hb).
    rewrite length_zip_with.
    rewrite (Forall_lookup_1 _ _ _ _ HrF Ha).
    rewrite (Forall_lookup_1 _ _ _ _ HrG Hb). lia.
Qed.

Lemma np_max_succeeds ny0 nx0 F :
  grid_shape ny0 nx0 F → (0 < ny0)%nat → (0 < nx0)%nat →
  ∃ m, np_max F = Ok m.
Proof.
  intros [Hl Hr] Hny Hnx. unfold np_max.
  pose proof (length_concat_blocks F nx0 Hr) as Hc.
  destruct (concat F) as [|x l]; [simpl in Hc; nia|]. by eexists.
Qed.

(** Row [-10] exists exactly when there are ten rows. *)
Lemma py_row_minus_ten F :
  if decide (10 ≤ length F)%nat
  then ∃ r, py_row (-10) F = Done r
  else py_row (-10) F = Failed IndexError.
Proof.
  unfold py_row.
  destruct (decide (10 ≤ length F)%nat) as [H10|H10];
    rewrite (decide_True (P := (-10 < 0)%Z)) by lia.
  - rewrite decide_True by lia.
    destruct (lookup_lt_is_Some_2 F (Z.to_nat (-10 + Z.of_nat (length F))))
      as [r ->]; [lia|]. by exists r.
  - by rewrite decide_False by lia.
Qed.

Lemma display_inputs g :
  display_shaped g →
  (0 < ny (config g))%nat → (0 < nx (config g))%nat →
  ∃ ux uy ms Fc Ft,
    velocity_x g = Ok ux ∧ velocity_y g = Ok uy
    ∧ max_speed ux uy = Ok ms
    ∧ vecToField (ny (config g)) (nx (config g))
        (vsub (mvmul (dyOpTemp (ops g)) (Tnplus1 g)) (rhsDyOpTemp (ops g)))
      = Ok Fc
    ∧ vecToField (ny (config g)) (nx (config g)) (Tnplus1 g) = Ok Ft
    ∧ length uy = ny (config g) ∧ length Fc = ny (config g)
    ∧ length Ft = ny (config g).
Proof.
  intros (H1 & H2 & H3 & H4 & H5) Hny Hnx. unfold npoints in *.
  set (n := ny (config g)) in *. set (m := nx (config g)) in *.
  destruct (vecToField_Ok n m (mvmul (dyOpPsi (ops g)) (Psinplus1 g)))
    as (Fx & HFx & Hsx & _); [rewrite length_mvmul; lia|].
  destruct (vecToField_Ok n m (mvmul (dxOpPsi (ops g)) (Psinplus1 g)))
    as (Fy & HFy & Hsy & _); [rewrite length_mvmul; lia|].
  set (ux := field_map (λ v, v + tiny_velocity) Fx).
  set (uy := field_map (λ v, - v + tiny_velocity) Fy).
  assert (grid_shape n m ux) as Hux by (by apply field_map_shape).
  assert (grid_shape n m uy) as Huy by (by apply field_map_shape).
  destruct (np_max_succeeds n m
              (field_add (field_map (λ v, v * v) ux)
                         (field_map (λ v, v * v) uy)))
    as (m0 & Hm0); [|done..|].
  { by apply field_add_shape; apply field_map_shape. }
  destruct (vecToField_Ok n m
              (vsub (mvmul (dyOpTemp (ops g)) (Tnplus1 g))
                    (rhsDyOpTemp (ops g))))
    as (Fc & HFc & [Hlc _] & _).
  { unfold vsub. rewrite length_zip_with, length_mvmul. lia. }
  destruct (vecToField_Ok n m (Tnplus1 g)) as (Ft & HFt & [Hlt _] & _);
    [lia|].
  exists ux, uy, (tiny_speed + m0), Fc, Ft.
  unfold velocity_x, velocity_y, max_speed. fold n m.
  rewrite HFx, HFy, !bind_Ok_l, Hm0, bind_Ok_l.
  destruct Huy as [Hluy _]. by repeat split.
Qed.

(** X17.  The heat fluxes are read from row [-10] of the grid: at a pass
    that draws a frame the display block completes when the grid has at
    least ten rows and raises [IndexError] when it has fewer (given
    operators and a temperature with one entry per grid point, and a
    non-empty grid). *)
Theorem display_needs_ten_rows ps it acc g :
  display_shaped g →
  (0 < ny (config g))%nat → (0 < nx (config g))%nat →
  generateAnimation ps = true →
  generateEvery ps ≠ 0%nat → (it `mod` generateEvery ps = 0)%nat →
  if decide (10 ≤ ny (config g))%nat
  then ∃ acc', display ps it acc g = Done acc'
  else display ps it acc g = Failed IndexError.
Proof.
  intros Hsh Hny Hnx Hg He Hm.
  destruct (display_inputs g Hsh Hny Hnx)
    as (ux & uy & ms & Fc & Ft & Hux & Huy & Hms & HFc & HFt
        & Hlu & Hlc & Hlt).
  pose proof (py_row_minus_ten Fc) as Hrc.
  pose proof (py_row_minus_ten uy) as Hru.
  pose proof (py_row_minus_ten Ft) as Hrt.
  rewrite Hlc in Hrc. rewrite Hlu in Hru. rewrite Hlt in Hrt.
  unfold display, py_mod, heat_flux_conduction, heat_flux_advection.
  rewrite (decide_False (P := generateEvery ps = 0%nat)) by done.
  cbn [from_result]. rewrite outcome_bind_Done_l.
  rewrite (decide_True (P := (it `mod` generateEvery ps)%nat = 0%nat)) by done.
  rewrite Hg, Hux. cbn [from_result]. rewrite outcome_bind_Done_l.
  rewrite Huy. cbn [from_result]. rewrite outcome_bind_Done_l.
  rewrite Hms. cbn [from_result]. rewrite outcome_bind_Done_l.
  rewrite HFc, HFt. cbn [from_result]. rewrite !outcome_bind_Done_l.
  destruct (decide (10 ≤ ny (config g))%nat) as [H10|H10].
  - destruct Hrc as [rc ->]. destruct Hru as [ru ->].
    rewrite !outcome_bind_Done_l. destruct Hrt as [rt ->].
    rewrite !outcome_bind_Done_l. by eexists.
  - by rewrite Hrc.
Qed.

Lemma display_needs_ten_rows_witness :
  (∃ acc', display fast_plot_settings 0 no_accumulators (still_state 10 2)
           = Done acc')
  ∧ display fast_plot_settings 0 no_accumulators (still_state 9 2)
    = Failed IndexError.
Proof.
  split.
  - apply (display_needs_ten_rows fast_plot_settings 0 no_accumulators
             (still_state 10 2)); try done; simpl; lia.
  - apply (display_needs_ten_rows fast_plot_settings 0 no_accumulators
             (still_state 9 2)); try done; simpl; lia.
Defined.

(** ** The whole loop, display block included *)

Lemma append_time_succeeds rnd dt0 it ts :
  length ts = it → ∃ ts', append_time rnd dt0 it ts = Done ts'.
Proof.
  intros Hl. unfold append_time, py_last. case_decide; [by eexists|].
  destruct (last ts) as [x|] eqn:Hx; [by eexists|].
  apply last_None in Hx. subst ts. simpl in Hl. lia.
Qed.

Lemma display_succeeds ps it acc g :
  display_shaped g →
  (10 ≤ ny (config g))%nat → (0 < nx (config g))%nat →
  generateEvery ps ≠ 0%nat →
  ∃ acc', display ps it acc g = Done acc'.
Proof.
  intros Hsh Hny Hnx He.
  destruct (display_inputs g Hsh) as (ux & uy & ms & Fc & Ft & Hux & Huy & Hms
                                      & HFc & HFt & Hlu & Hlc & Hlt);
    [lia|done|].
  pose proof (py_row_minus_ten Fc) as Hrc.
  pose proof (py_row_minus_ten uy) as Hru.
  pose proof (py_row_minus_ten Ft) as Hrt.
  rewrite decide_True in Hrc by lia. rewrite decide_True in Hru by lia.
  rewrite decide_True in Hrt by lia.
  destruct Hrc as [rc Hrc]. destruct Hru as [ru Hru]. destruct Hrt as [rt Hrt].
  unfold display, py_mod, heat_flux_conduction, heat_flux_advection.
  rewrite decide_False by done. cbn [from_result]. rewrite outcome_bind_Done_l.
  case_decide; [|by eexists].
  destruct (generateAnimation ps); [|by eexists].
  rewrite Hux. cbn [from_result]. rewrite outcome_bind_Done_l.
  rewrite Huy. cbn [from_result]. rewrite outcome_bind_Done_l.
  rewrite Hms. cbn [from_result]. rewrite outcome_bind_Done_l.
  rewrite HFc, HFt. cbn [from_result].
  rewrite !outcome_bind_Done_l, Hrc, Hru, !outcome_bind_Done_l, Hrt.
  rewrite !outcome_bind_Done_l. by eexists.
Qed.

(** X18.  With an exact library, operators with one row per grid point, a
    grid of at least ten rows and one column, and a non-zero frame
    interval, the loop with its display block completes any number of
    passes without an exception. *)
Theorem full_loop_completes lib ps rnd dt0 nt0 ny0 nx0 p o g0 k :
  exact_for lib dt0 ny0 nx0 p o →
  (10 ≤ ny0)%nat → (0 < nx0)%nat →
  length (dyOpPsi o) = (nx0 * ny0)%nat →
  length (dxOpPsi o) = (nx0 * ny0)%nat →
  length (dyOpTemp o) = (nx0 * ny0)%nat →
  length (rhsDyOpTemp o) = (nx0 * ny0)%nat →
  generateEvery ps ≠ 0%nat →
  setup lib dt0 nt0 ny0 nx0 p o = Ok g0 →
  ∃ acc g, loop_from lib ps rnd 0 k (no_accumulators, g0) = Done (acc, g)
    ∧ reached lib dt0 nt0 ny0 nx0 p o k g.
Proof.
  intros Hex Hny Hnx H1 H2 H3 H4 He Hs.
  assert (∃ acc g,
            loop_from lib ps rnd 0 k (no_accumulators, g0) = Done (acc, g)
            ∧ reached lib dt0 nt0 ny0 nx0 p o k g
            ∧ length (t acc) = k
            ∧ length (Tnplus1 g) = (nx0 * ny0)%nat) as (acc & g & H & Hr & _);
    [|by exists acc, g].
  induction k as [|k IH].
  - exists no_accumulators, g0. split; [done|]. split; [by exists g0|].
    split; [done|].
    apply setup_Ok in Hs as (_ & _ & _ & _ & _ & HT & _).
    destruct (startT_length p ny0 nx0) as (T0 & HT0 & Hl).
    rewrite HT in HT0. by injection HT0 as <-.
  - destruct IH as (acc & g & Hl & Hr & Ht & HT).
    destruct (reached_instance _ _ _ _ _ _ _ _ _ Hr) as [Hi Hp].
    pose proof Hi as (_ & Hgy & Hgx & Ho & _).
    destruct (step_succeeds _ _ _ _ _ _ _ Hex Hi Hp) as (g' & Hg').
    destruct (append_time_succeeds rnd (dt (config g)) k (t acc) Ht)
      as (ts & Hts).
    destruct (display_succeeds ps k (set_time acc ts) g) as (acc' & Hd);
      [|lia|lia|done|].
    { unfold display_shaped, npoints. rewrite Hgy, Hgx, Ho. done. }
    exists acc', g'. split; [|split; [|split]].
    + rewrite loop_from_S_last, Hl, outcome_bind_Done_l.
      unfold loop_pass, display_part.
      simpl. rewrite Hts, outcome_bind_Done_l, Hd, outcome_bind_Done_l.
      by rewrite Hg'.
    + by apply (reached_step _ _ _ _ _ _ _ _ g).
    + apply display_Done in Hd as (_ & -> & _). simpl.
      by apply append_time_length in Hts as ->; rewrite Ht.
    + destruct (step_lengths lib g g') as [HT' _]; [lia|done|].
      unfold npoints in HT'. by rewrite Hgy, Hgx in HT'.
Qed.

Lemma still_lib_exact :
  exact_for (still_lib 20) main_dt 10 2 main_params (still_ops 20).
Proof.
  split; [done|]. split.
  - by apply (unit_solver_exact_eye (still_lib 20) 20).
  - intros psi.
    assert (madd (eye (2 * 10))
              (mscale (main_dt / 2)
                 (constructC (still_lib 20) (still_ops 20) psi
                    (sqrtRa main_params)).1)
            = eye 20) as ->
      by (apply (bool_decide_unpack _); by vm_compute).
    by apply (unit_solver_exact_eye (still_lib 20) 20).
Qed.

Lemma full_loop_completes_witness :
  ∃ g0 acc g,
    setup (still_lib 20) main_dt 2 10 2 main_params (still_ops 20) = Ok g0
    ∧ loop_from (still_lib 20) fast_plot_settings coarse_round 0 3 (no_accumulators, g0)
      = Done (acc, g)
    ∧ reached (still_lib 20) main_dt 2 10 2 main_params (still_ops 20) 3 g.
Proof.
  destruct (setup (still_lib 20) main_dt 2 10 2 main_params (still_ops 20))
    as [g0|e] eqn:E; [|exfalso; vm_compute in E; discriminate].
  destruct (full_loop_completes (still_lib 20) fast_plot_settings
              coarse_round main_dt 2 10 2 main_params (still_ops 20) g0 3
              still_lib_exact)
    as (acc & g & H); try done; try lia.
  by exists g0, acc, g.
Defined.

(** * The whole script *)

(** The fields the loop ends with are those of the numerical part alone:
    the display block only reads them. *)
Lemma loop_from_iterate lib ps rnd it k acc g acc' g' :
  loop_from lib ps rnd it k (acc, g) = Done (acc', g') →
  iterate lib k g = Ok g'.
Proof.
  revert it acc g. induction k as [|k IH]; intros it acc g H; simpl in H.
  - by injection H as <- <-.
  - apply outcome_bind_Done in H as ([acc1 g1] & H1 & H2).
    apply loop_pass_Done in H1 as (ts & _ & _ & Hs).
    simpl. rewrite Hs, bind_Ok_l. by apply (IH (S it) acc1).
Qed.

Lemma loop_from_add lib ps rnd it j k s :
  loop_from lib ps rnd it (j + k) s
  = (loop_from lib ps rnd it j s ≫= loop_from lib ps rnd (it + j) k).
Proof.
  revert it s. induction j as [|j IH]; intros it s.
  - simpl. by rewrite Nat.add_0_r.
  - change (loop_from lib ps rnd it (S j + k) s)
      with (loop_pass lib ps rnd it s ≫= loop_from lib ps rnd (S it) (j + k)).
    change (loop_from lib ps rnd it (S j) s)
      with (loop_pass lib ps rnd it s ≫= loop_from lib ps rnd (S it) j).
    destruct (loop_pass lib ps rnd it s) as [s1|e]; [|done].
    rewrite !outcome_bind_Done_l, IH.
    by replace (S it + j)%nat with (it + S j)%nat by lia.
Qed.

(** A pass whose numerical part raises: the exception of the display part
    if that raises first, the exception of the numerical part otherwise. *)
Lemma loop_pass_Raise lib ps rnd it acc g e :
  step lib g = Raise e →
  loop_pass lib ps rnd it (acc, g)
  = match display_part ps rnd it (acc, g) with
    | Done _ => Failed (Numeric e)
    | Failed e' => Failed e'
    end.
Proof.
  intros Hs. unfold loop_pass.
  destruct (display_part ps rnd it (acc, g)) as [acc1|e']; [|done].
  rewrite outcome_bind_Done_l. simpl. by rewrite Hs.
Qed.

Lemma loop_from_Raise lib ps rnd j k acc g s e :
  loop_from lib ps rnd 0 j s = Done (acc, g) →
  step lib g = Raise e → (j < k)%nat →
  loop_from lib ps rnd 0 k s
  = match display_part ps rnd j (acc, g) with
    | Done _ => Failed (Numeric e)
    | Failed e' => Failed e'
    end.
Proof.
  intros Hj Hs Hk.
  replace k with (j + S (k - j - 1))%nat by lia.
  rewrite loop_from_add, Hj, outcome_bind_Done_l. simpl.
  rewrite (loop_pass_Raise _ _ _ _ _ _ e Hs).
  by destruct (display_part ps rnd j (acc, g)).
Qed.

Lemma setup_nt lib dt0 nt0 ny0 nx0 p o g :
  setup lib dt0 nt0 ny0 nx0 p o = Ok g → nt (config g) = nt0.
Proof.
  intros (Hc%make_config_Ok & _)%setup_Ok. by destruct Hc as [_ ->].
Qed.

(** ** A temperature system that cannot be solved *)




(** ** The two solver paths over the whole run *)

(** The display part reads the fields, the operators, the configuration and
    [sqrtRa]; the solver flags are none of its business. *)
Lemma display_part_flags ps rnd it acc g g' :
  same_up_to_flags g g' →
  display_part ps rnd it (acc, g') = display_part ps rnd it (acc, g).
Proof.
  intros (Hc & Ho & _ & HT & HP & Hs & _).
  unfold display_part, display, velocity_x, velocity_y,
    heat_flux_conduction, heat_flux_advection. simpl.
  by rewrite <- Hc, <- Ho, <- HT, <- HP, <- Hs.
Qed.

Lemma loop_pass_flags lib ps rnd dt0 ny0 nx0 p o it acc g g' :
  exact_for lib dt0 ny0 nx0 p o → instance_of dt0 ny0 nx0 p o g →
  same_up_to_flags g g' → prepared lib g → prepared lib g' →
  loop_pass lib ps rnd it (acc, g')
  = fmap_outcome (λ s, (s.1, set_fields g' (Tnplus1 s.2) (Psinplus1 s.2)))
      (loop_pass lib ps rnd it (acc, g)).
Proof.
  intros Hex Hg Hsame Hp Hp'. unfold loop_pass.
  rewrite (display_part_flags ps rnd it acc g g' Hsame). simpl.
  rewrite (step_flags _ _ _ _ _ _ g g' Hex Hg Hsame Hp Hp').
  destruct (display_part ps rnd it (acc, g)) as [acc1|e]; [|done].
  rewrite !outcome_bind_Done_l. by destruct (step lib g).
Qed.

Lemma loop_from_flags lib ps rnd dt0 ny0 nx0 p o k it acc g g' :
  exact_for lib dt0 ny0 nx0 p o → instance_of dt0 ny0 nx0 p o g →
  same_up_to_flags g g' → prepared lib g → prepared lib g' →
  loop_from lib ps rnd it k (acc, g')
  = fmap_outcome (λ s, (s.1, set_fields g' (Tnplus1 s.2) (Psinplus1 s.2)))
      (loop_from lib ps rnd it k (acc, g)).
Proof.
  intros Hex. revert it acc g g'.
  induction k as [|k IH]; intros it acc g g' Hg Hsame Hp Hp'.
  - simpl. destruct Hsame as (_ & _ & _ & -> & -> & _).
    by rewrite set_fields_same.
  - change (loop_from lib ps rnd it (S k) (acc, g'))
      with (loop_pass lib ps rnd it (acc, g')
            ≫= loop_from lib ps rnd (S it) k).
    change (loop_from lib ps rnd it (S k) (acc, g))
      with (loop_pass lib ps rnd it (acc, g)
            ≫= loop_from lib ps rnd (S it) k).
    rewrite (loop_pass_flags _ _ _ _ _ _ _ _ it acc g g' Hex Hg Hsame Hp Hp').
    destruct (loop_pass lib ps rnd it (acc, g)) as [[acc1 h]|e] eqn:Hl;
      [|done].
    simpl fmap_outcome. rewrite !outcome_bind_Done_l.
    apply loop_pass_Done in Hl as (ts & _ & _ & Hs).
    destruct (step_frame _ _ _ Hs) as (Hc & Hpa & Ho & HE & Hf).
    simpl fst. simpl snd.
    rewrite (IH (S it) acc1 h
               (set_fields g' (Tnplus1 h) (Psinplus1 h))); [done|..].
    + destruct Hg as (? & ? & ? & ? & ?). unfold instance_of.
      by rewrite Hc, Ho, Hpa.
    + destruct Hsame as (? & ? & ? & _ & _ & ? & ? & ?).
      unfold same_up_to_flags. simpl. rewrite Hc, Ho, HE, Hpa. done.
    + destruct Hp. unfold prepared. by rewrite Hc, Ho, HE, Hpa, Hf.
    + done.
Qed.




(** ** The run without the animation *)

Lemma exact_setup_succeeds lib dt0 nt0 ny0 nx0 p o :
  (2 ≤ ny0)%nat → exact_for lib dt0 ny0 nx0 p o →
  ∃ g0, setup lib dt0 nt0 ny0 nx0 p o = Ok g0.
Proof.
  intros Hny Hex.
  assert (∃ r, make_factor1 lib p o = Ok r) as [r Hr].
  { destruct Hex as (_ & [(f & Hf & _) _ _] & _). unfold make_factor1.
    destruct (useSuperLUFactorizationEq1 p); [|by eexists].
    rewrite Hf. by eexists. }
  destruct (setup_succeeds lib dt0 nt0 ny0 nx0 p o r Hny Hr) as (g0 & Hs & _).
  by exists g0.
Qed.

(** Under an exact library the loop completes as many passes as the display
    block does. *)
Lemma loop_completes lib ps rnd dt0 nt0 ny0 nx0 p o g0 k :
  exact_for lib dt0 ny0 nx0 p o →
  setup lib dt0 nt0 ny0 nx0 p o = Ok g0 →
  (∀ it acc g, reached lib dt0 nt0 ny0 nx0 p o it g →
               ∃ acc', display ps it acc g = Done acc') →
  ∃ acc g, loop_from lib ps rnd 0 k (no_accumulators, g0) = Done (acc, g)
    ∧ reached lib dt0 nt0 ny0 nx0 p o k g
    ∧ length (t acc) = k.
Proof.
  intros Hex Hs Hd. induction k as [|k IH].
  - exists no_accumulators, g0. split; [done|]. split; [by exists g0|done].
  - destruct IH as (acc & g & Hl & Hr & Ht).
    destruct (reached_instance _ _ _ _ _ _ _ _ _ Hr) as [Hi Hp].
    destruct (step_succeeds _ _ _ _ _ _ _ Hex Hi Hp) as (g' & Hg').
    destruct (append_time_succeeds rnd (dt (config g)) k (t acc) Ht)
      as (ts & Hts).
    destruct (Hd k (set_time acc ts) g Hr) as (acc' & Hacc').
    exists acc', g'. split; [|split].
    + rewrite loop_from_S_last, Hl, outcome_bind_Done_l.
      unfold loop_pass, display_part. simpl.
      rewrite Hts, outcome_bind_Done_l, Hacc', outcome_bind_Done_l.
      by rewrite Hg'.
    + by apply (reached_step _ _ _ _ _ _ _ _ g).
    + apply display_Done in Hacc' as (_ & -> & _). simpl.
      by apply append_time_length in Hts as ->; rewrite Ht.
Qed.

(** X10.  The frame interval is read before the animation switch (line 114
    before line 115).  Under a library that is exact on the two systems and
    with at least two rows: with [generateEvery = 0] the script raises
    [ZeroDivisionError] in its first pass, whatever [generateAnimation] is;
    with the animation off and a non-zero interval the script raises no
    exception on any grid, completes all [nt + 1] passes and records
    nothing but the [nt + 1] times. *)
Theorem run_without_animation lib ps rnd dt0 nt0 ny0 nx0 p o :
  (2 ≤ ny0)%nat → exact_for lib dt0 ny0 nx0 p o →
  (generateEvery ps = 0%nat →
     main lib ps rnd dt0 nt0 ny0 nx0 p o = Failed (Numeric ZeroDivisionError))
  ∧ (generateEvery ps ≠ 0%nat → generateAnimation ps = false →
     ∃ acc g,
       main lib ps rnd dt0 nt0 ny0 nx0 p o = Done (acc, g)
       ∧ reached lib dt0 nt0 ny0 nx0 p o (S nt0) g
       ∧ length (t acc) = S nt0
       ∧ maxSpeedArr acc = [] ∧ heatFluxConductionArr acc = []
       ∧ heatFluxAdvectionArr acc = [] ∧ totalHeatFluxArr acc = []).
Proof.
  intros Hny Hex.
  destruct (exact_setup_succeeds lib dt0 nt0 ny0 nx0 p o Hny Hex)
    as (g0 & Hs).
  pose proof (setup_nt _ _ _ _ _ _ _ _ Hs) as Hnt.
  split.
  - intros He. unfold main. rewrite Hs. simpl from_result.
    rewrite outcome_bind_Done_l, Hnt.
    change (loop_from lib ps rnd 0 (S nt0) (no_accumulators, g0))
      with (loop_pass lib ps rnd 0 (no_accumulators, g0)
            ≫= loop_from lib ps rnd 1 nt0).
    unfold loop_pass, display_part, append_time, display, py_mod. simpl.
    by rewrite He.
  - intros He Hg.
    destruct (loop_completes lib ps rnd dt0 nt0 ny0 nx0 p o g0 (S nt0) Hex Hs)
      as (acc & g & Hl & Hr & Ht).
    { intros it acc g _. exists acc. unfold display, py_mod.
      rewrite decide_False by done. simpl. rewrite Hg. by case_decide. }
    exists acc, g. split; [|split; [done|split; [done|]]].
    + unfold main. rewrite Hs. simpl from_result.
      by rewrite outcome_bind_Done_l, Hnt.
    + apply (loop_from_invariant lib ps rnd
               (λ _ a, maxSpeedArr a = [] ∧ heatFluxConductionArr a = []
                       ∧ heatFluxAdvectionArr a = []
                       ∧ totalHeatFluxArr a = []) (S nt0) g0 acc g);
        [done| |done].
      intros it a g1 ts a1 Ha _ Hd.
      apply display_Done in Hd as (_ & _ & Hcase).
      destruct Hcase as [(_ & Hon & _)|(_ & ->)]; [congruence|done].
Qed.

Lemma run_without_animation_witness :
  main unit_lib {| generateAnimation := false; generateEvery := 0 |}
    coarse_round main_dt 2 3 3 main_params unit_ops
  = Failed (Numeric ZeroDivisionError)
  ∧ ∃ acc g,
      main unit_lib quiet_plot_settings coarse_round main_dt 2 3 3
        main_params unit_ops = Done (acc, g)
      ∧ reached unit_lib main_dt 2 3 3 main_params unit_ops 3 g
      ∧ length (t acc) = 3%nat
      ∧ maxSpeedArr acc = [] ∧ heatFluxConductionArr acc = []
      ∧ heatFluxAdvectionArr acc = [] ∧ totalHeatFluxArr acc = [].
Proof.
  split.
  - destruct (run_without_animation unit_lib
                {| generateAnimation := false; generateEvery := 0 |}
                coarse_round main_dt 2 3 3 main_params unit_ops
                ltac:(lia) unit_lib_exact) as [Hzero _].
    exact (Hzero eq_refl).
  - destruct (run_without_animation unit_lib quiet_plot_settings
                coarse_round main_dt 2 3 3 main_params unit_ops
                ltac:(lia) unit_lib_exact) as [_ Hquiet].
    apply Hquiet; [discriminate|reflexivity].
Defined.
